(** * PlayerAI_3: depth-bounded adversarial search for the 2048 player

    A shallow embedding of [PlayerAI_3.py].  Python integers are
    unbounded, so tile values, utilities, depths and coordinates are [Z].
    The board class [Grid] lives in [Grid_3.py]; its interface is modelled
    in the first part of the file, the player in the second. *)

From Stdlib Require Import ZArith List Bool Lia.
Import ListNotations.
Open Scope Z_scope.

(** ** Grid_3: directions, positions and the board

    [Grid_3.py] is not among the sources.  The player uses the names it
    imports from it and the methods of [Grid]; they are modelled here
    from the description of the board interface. *)

(** Modelled from the spec: a direction is one of up, down, left and
    right; [vecIndex] lists them in the order [UP, DOWN, LEFT, RIGHT]. *)
Inductive Direction : Type := UP | DOWN | LEFT | RIGHT.

Definition Direction_eqb (a b : Direction) : bool :=
  match a, b with
  | UP, UP | DOWN, DOWN | LEFT, LEFT | RIGHT, RIGHT => true
  | _, _ => false
  end.

Definition vecIndex : list Direction := [UP; DOWN; LEFT; RIGHT].

(** A position is a pair [(row, column)]; the scans of the evaluator step
    one cell past the last row or column, so positions are not confined to
    the board. *)
Definition Position : Type := (Z * Z)%type.

(** Modelled from the spec: the direction vectors.  A scan downward goes
    to the next row, a scan rightward to the next column. *)
Definition UP_VEC : Position := (-1, 0).
Definition DOWN_VEC : Position := (1, 0).
Definition LEFT_VEC : Position := (0, -1).
Definition RIGHT_VEC : Position := (0, 1).

Definition directionVectors (d : Direction) : Position :=
  match d with
  | UP => UP_VEC
  | DOWN => DOWN_VEC
  | LEFT => LEFT_VEC
  | RIGHT => RIGHT_VEC
  end.

(** Modelled from the spec: the board, a square matrix of tile values
    (0 = empty) of a fixed size; [grid.size] and [grid.map], a list of
    rows. *)
Record Grid : Type := { size : Z; map : list (list Z) }.

(** [range(n)] *)
Definition range (n : Z) : list Z := List.map Z.of_nat (seq 0 (Z.to_nat n)).

(** [((i, j) for i in range(n) for j in range(n))] *)
Definition positions (n : Z) : list Position :=
  flat_map (fun i => List.map (fun j => (i, j)) (range n)) (range n).

(** [grid.map[i][j]].  A board is a [size] x [size] matrix and the player
    only indexes it inside these bounds, where the default value below is
    not used. *)
Definition cell (g : Grid) (i j : Z) : Z :=
  nth (Z.to_nat j) (nth (Z.to_nat i) (map g) []) 0.

(** Modelled from the spec: [crossBound(position)], true iff the position
    is outside the grid ([Grid_3.py] is not part of the sources). *)
Definition crossBound (g : Grid) (pos : Position) : bool :=
  (fst pos <? 0) || (size g <=? fst pos) || (snd pos <? 0) || (size g <=? snd pos).

(** Modelled from the spec: [getCellValue(position)], the value of the
    cell, or none when the position is out of bounds. *)
Definition getCellValue (g : Grid) (pos : Position) : option Z :=
  if crossBound g pos then None else Some (cell g (fst pos) (snd pos)).

(** Modelled from the spec: [canInsert(position)], true iff the cell is
    empty and in bounds. *)
Definition canInsert (g : Grid) (pos : Position) : bool :=
  match getCellValue g pos with
  | Some v => v =? 0
  | None => false
  end.

(** Modelled from the spec: [getAvailableCells()], the currently empty
    cells, in row-major order. *)
Definition getAvailableCells (g : Grid) : list Position :=
  filter (fun pos => cell g (fst pos) (snd pos) =? 0) (positions (size g)).

(** Modelled from the spec: [getMaxTile()], the maximum tile currently on
    the board (an empty cell holds 0). *)
Definition getMaxTile (g : Grid) : Z :=
  fold_left (fun maxTile pos => Z.max maxTile (cell g (fst pos) (snd pos)))
            (positions (size g)) 0.

(** Modelled from the spec: [clone()], an independent deep copy.  With
    boards as values the copy is the board itself; the object store
    further down gives each clone an identity of its own. *)
Definition clone (g : Grid) : Grid := {| size := size g; map := map g |}.

(** [l[n] = x] *)
Fixpoint list_set {A : Type} (l : list A) (n : nat) (x : A) : list A :=
  match l, n with
  | [], _ => []
  | _ :: tl, O => x :: tl
  | hd :: tl, S n' => hd :: list_set tl n' x
  end.

(** Modelled from the spec: [setCellValue(position, value)], which stores
    [value] in [grid.map] at [position]. *)
Definition setCellValue (g : Grid) (pos : Position) (value : Z) : Grid :=
  {| size := size g;
     map := list_set (map g) (Z.to_nat (fst pos))
              (list_set (nth (Z.to_nat (fst pos)) (map g) []) (Z.to_nat (snd pos)) value) |}.

(** Merging of a line of tiles that have been slid together: two adjacent
    equal values combine once. *)
Fixpoint merge (cells : list Z) : list Z :=
  match cells with
  | [] => []
  | a :: tl =>
      match tl with
      | [] => [a]
      | b :: rest => if a =? b then a * 2 :: merge rest else a :: merge tl
      end
  end.

Definition occupied (line : list Z) : list Z := filter (fun v => negb (v =? 0)) line.

Definition row_of (g : Grid) (i : Z) : list Z := List.map (fun j => cell g i j) (range (size g)).
Definition col_of (g : Grid) (j : Z) : list Z := List.map (fun i => cell g i j) (range (size g)).

(** Modelled from the spec: [move(direction)], a shift, "an operation that
    slides all tiles in one direction, merging adjacent equal values".
    Each line is read from the edge the tiles slide to, its occupied cells
    are merged, and the line is written back from that edge, padded with
    empty cells. *)
Definition shifted (g : Grid) (dir : Direction) (i j : Z) : Z :=
  match dir with
  | UP => nth (Z.to_nat i) (merge (occupied (col_of g j))) 0
  | DOWN => nth (Z.to_nat (size g - 1 - i)) (merge (occupied (rev (col_of g j)))) 0
  | LEFT => nth (Z.to_nat j) (merge (occupied (row_of g i))) 0
  | RIGHT => nth (Z.to_nat (size g - 1 - j)) (merge (occupied (rev (row_of g i)))) 0
  end.

Definition move (g : Grid) (dir : Direction) : Grid :=
  {| size := size g;
     map := List.map (fun i => List.map (fun j => shifted g dir i j) (range (size g)))
                     (range (size g)) |}.

(** A shift is legal when it changes the board. *)
Definition moved (g : Grid) (dir : Direction) : bool :=
  existsb (fun pos => negb (cell (move g dir) (fst pos) (snd pos) =? cell g (fst pos) (snd pos)))
          (positions (size g)).

(** Modelled from the spec: [getAvailableMoves()], the legal shifts from
    the current state, in the order of [vecIndex]. *)
Definition getAvailableMoves (g : Grid) : list Direction :=
  filter (moved g) vecIndex.

(** ** PlayerAI: constants *)

Definition TARGET_TILE_VALUE : Z := 2048.

(** [{2: 9}]; the entry [4: 1] is commented out in the source. *)
Definition TILE_VALUE_PROBA : list (Z * Z) := [(2, 9)].

Definition MAX_DEPTH : Z := 4.

(** [sys.maxsize] of a 64-bit interpreter. *)
Definition MAX_UTILITY : Z := 9223372036854775807.

(** ** PlayerAI: the position evaluator *)

Fixpoint count_ones_pos (p : positive) : Z :=
  match p with
  | xH => 1
  | xO q => count_ones_pos q
  | xI q => 1 + count_ones_pos q
  end.

(** [bin(x).count("1")]: the number of set bits of the magnitude of [x]. *)
Definition count_ones (x : Z) : Z :=
  match x with
  | Z0 => 0
  | Zpos p => count_ones_pos p
  | Zneg p => count_ones_pos p
  end.

Definition __log2 (value : Z) : Z :=
  if negb (value =? 0) then count_ones (Z.lxor value (value - 1)) else 0.

Definition pos_add (p v : Position) : Position := (fst p + fst v, snd p + snd v).

(** The [while] loop of [__find_farthest_pos].  A scan down or right from
    a cell of the board leaves the board after at most [size] steps
    ([find_farthest_fuel]), which is the fuel given below. *)
Fixpoint find_farthest_loop (fuel : nat) (g : Grid) (next_pos direction_vec : Position) : Position :=
  match fuel with
  | O => next_pos
  | S fuel' =>
      if negb (crossBound g next_pos) && canInsert g next_pos
      then find_farthest_loop fuel' g (pos_add next_pos direction_vec) direction_vec
      else next_pos
  end.

Definition __find_farthest_pos (g : Grid) (start_pos direction_vec : Position) : Position :=
  find_farthest_loop (Z.to_nat (size g)) g (pos_add start_pos direction_vec) direction_vec.

Definition __smoothness (g : Grid) : Z :=
  fold_left
    (fun smoothness start_pos =>
       if negb (canInsert g start_pos) then
         let start_value := __log2 (cell g (fst start_pos) (snd start_pos)) in
         fold_left
           (fun smoothness direction_vec =>
              let terminal_pos := __find_farthest_pos g start_pos direction_vec in
              match getCellValue g terminal_pos with
              | Some terminal_value =>
                  smoothness - Z.abs (start_value - __log2 terminal_value)
              | None => smoothness
              end)
           [DOWN_VEC; RIGHT_VEC] smoothness
       else smoothness)
    (positions (size g)) 0.

(** The dictionary [monotonicity], keyed by direction. *)
Definition mono_dict : Type := Direction -> Z.

Definition mono_zero : mono_dict := fun _ => 0.

(** [monotonicity[k] += v] *)
Definition mono_add (m : mono_dict) (k : Direction) (v : Z) : mono_dict :=
  fun d => if Direction_eqb d k then m d + v else m d.

(** The [while (next_row < grid.size)] loop of one column. *)
Fixpoint mono_col_loop (fuel : nat) (g : Grid) (col current_row next_row : Z)
         (monotonicity : mono_dict) : mono_dict :=
  match fuel with
  | O => monotonicity
  | S fuel' =>
      if next_row <? size g then
        let next_row := fst (__find_farthest_pos g (current_row, col) DOWN_VEC) in
        let current_value := __log2 (cell g current_row col) in
        let next_value :=
          __log2 (cell g (if next_row =? size g then size g - 1 else next_row) col) in
        let monotonicity :=
          if current_value <? next_value
          then mono_add monotonicity DOWN (current_value - next_value)
          else mono_add monotonicity UP (next_value - current_value) in
        mono_col_loop fuel' g col next_row next_row monotonicity
      else monotonicity
  end.

(** The [while (next_col < grid.size)] loop of one row. *)
Fixpoint mono_row_loop (fuel : nat) (g : Grid) (row current_col next_col : Z)
         (monotonicity : mono_dict) : mono_dict :=
  match fuel with
  | O => monotonicity
  | S fuel' =>
      if next_col <? size g then
        let next_col := snd (__find_farthest_pos g (row, current_col) RIGHT_VEC) in
        let current_value := __log2 (cell g row current_col) in
        let next_value :=
          __log2 (cell g row (if next_col =? size g then size g - 1 else next_col)) in
        let monotonicity :=
          if current_value <? next_value
          then mono_add monotonicity RIGHT (current_value - next_value)
          else mono_add monotonicity LEFT (next_value - current_value) in
        mono_row_loop fuel' g row next_col next_col monotonicity
      else monotonicity
  end.

(** Each pass of a line's loop moves at least one cell forward, so
    [size + 1] passes finish it ([mono_col_fuel], [mono_row_fuel]). *)
Definition mono_fuel (g : Grid) : nat := S (Z.to_nat (size g)).

Definition mono_accumulate (g : Grid) : mono_dict :=
  let monotonicity :=
    fold_left (fun m col => mono_col_loop (mono_fuel g) g col 0 0 m) (range (size g)) mono_zero in
  fold_left (fun m row => mono_row_loop (mono_fuel g) g row 0 0 m) (range (size g)) monotonicity.

Definition __monotonicity (g : Grid) : Z :=
  let monotonicity := mono_accumulate g in
  Z.max (monotonicity UP) (monotonicity DOWN) + Z.max (monotonicity LEFT) (monotonicity RIGHT).

(** [tile_stats = {'max': 0, 'empty_count': 0}] *)
Record tile_stats : Type := { stat_max : Z; stat_empty_count : Z }.

(** One pass of the loop over the cells.  The positions it runs over are
    on the board, where [getCellValue] returns a value
    ([getCellValue_positions]). *)
Definition tile_stats_step (g : Grid) (ts : tile_stats) (pos : Position) : tile_stats :=
  match getCellValue g pos with
  | Some tile_value =>
      let ts :=
        if stat_max ts <? tile_value
        then {| stat_max := tile_value; stat_empty_count := stat_empty_count ts |}
        else ts in
      if tile_value =? 0
      then {| stat_max := stat_max ts; stat_empty_count := stat_empty_count ts + 1 |}
      else ts
  | None => ts
  end.

Definition __eval (g : Grid) : Z :=
  let SMOOTH_WEIGHT := 10 in
  let MONO_WEIGHT := 20 in
  let EMPTY_WEIGHT := 80 in
  let MAX_WEIGHT := 10 in
  let tile_stats :=
    fold_left (tile_stats_step g) (positions (size g))
              {| stat_max := 0; stat_empty_count := 0 |} in
  SMOOTH_WEIGHT * __smoothness g +
  MONO_WEIGHT * __monotonicity g +
  EMPTY_WEIGHT * stat_empty_count tile_stats +
  MAX_WEIGHT * stat_max tile_stats.

Definition __is_terminal_state (g : Grid) : bool := getMaxTile g =? TARGET_TILE_VALUE.

(** The board of the self-test at the end of the source file. *)
Definition test_grid : Grid :=
  {| size := 4;
     map := [[0; 0; 2; 4]; [0; 0; 2; 4]; [0; 2; 2; 2]; [0; 2; 2; 1024]] |}.

(** ** PlayerAI: the search, on boards as values

    [__maximize] and [__minimize] call each other with [depth + 1]; the
    recursion of the model is on a separate [fuel], and a call that runs
    out of it yields [None].  [search_fuel_enough] shows that
    [MAX_DEPTH - depth + 1] units are always enough. *)

Definition maximize_result : Type := (option Direction * Z)%type.
Definition minimize_result : Type := (option Position * Z)%type.

(** The body of [for move in grid.getAvailableMoves()] in [__maximize];
    [minimize] is the recursive call. *)
Fixpoint maximize_loop (minimize : Grid -> Z -> Z -> Z -> option minimize_result)
         (grid : Grid) (depth : Z) (moves : list Direction)
         (max_move : option Direction) (max_utility alpha beta : Z)
  : option maximize_result :=
  match moves with
  | [] => Some (max_move, max_utility)
  | a_move :: moves' =>
      let grid_copy := clone grid in
      let grid_copy := move grid_copy a_move in
      match minimize grid_copy (depth + 1) alpha beta with
      | None => None
      | Some (_, utility) =>
          let max_move := if utility >? max_utility then Some a_move else max_move in
          let max_utility := if utility >? max_utility then utility else max_utility in
          if utility >=? beta then Some (max_move, max_utility)
          else
            let alpha := if utility >? alpha then utility else alpha in
            maximize_loop minimize grid depth moves' max_move max_utility alpha beta
      end
  end.

(** The body of [for value, proba in self.TILE_VALUE_PROBA.items()]: every
    value is written into the same copy, at the same cell. *)
Fixpoint expected_loop (maximize : Grid -> Z -> Z -> Z -> option maximize_result)
         (grid_copy : Grid) (a_cell : Position) (depth alpha beta : Z)
         (items : list (Z * Z)) (utility freq : Z) : option (Z * Z) :=
  match items with
  | [] => Some (utility, freq)
  | (value, proba) :: items' =>
      let grid_copy := setCellValue grid_copy a_cell value in
      match maximize grid_copy (depth + 1) alpha beta with
      | None => None
      | Some (_, cond_utility) =>
          expected_loop maximize grid_copy a_cell depth alpha beta items'
                        (utility + proba * cond_utility) (freq + proba)
      end
  end.

(** The body of [for move in grid.getAvailableCells()] in [__minimize];
    [utility //= freq] is a floor division. *)
Fixpoint minimize_loop (maximize : Grid -> Z -> Z -> Z -> option maximize_result)
         (grid : Grid) (depth : Z) (cells : list Position)
         (min_move : option Position) (min_utility alpha beta : Z)
  : option minimize_result :=
  match cells with
  | [] => Some (min_move, min_utility)
  | a_cell :: cells' =>
      let grid_copy := clone grid in
      match expected_loop maximize grid_copy a_cell depth alpha beta TILE_VALUE_PROBA 0 0 with
      | None => None
      | Some (utility, freq) =>
          let utility := utility / freq in
          let min_move := if utility <? min_utility then Some a_cell else min_move in
          let min_utility := if utility <? min_utility then utility else min_utility in
          if utility <=? alpha then Some (min_move, min_utility)
          else
            let beta := if utility <? beta then utility else beta in
            minimize_loop maximize grid depth cells' min_move min_utility alpha beta
      end
  end.

Definition cutoff (grid : Grid) (depth : Z) : bool :=
  (depth =? MAX_DEPTH) || __is_terminal_state grid.

Fixpoint __maximize (fuel : nat) (grid : Grid) (depth alpha beta : Z) {struct fuel}
  : option maximize_result :=
  match fuel with
  | O => None
  | S fuel' =>
      if cutoff grid depth then Some (None, __eval grid)
      else maximize_loop (__minimize fuel') grid depth (getAvailableMoves grid)
                         None (- MAX_UTILITY) alpha beta
  end
with __minimize (fuel : nat) (grid : Grid) (depth alpha beta : Z) {struct fuel}
  : option minimize_result :=
  match fuel with
  | O => None
  | S fuel' =>
      if cutoff grid depth then Some (None, __eval grid)
      else minimize_loop (__maximize fuel') grid depth (getAvailableCells grid)
                         None MAX_UTILITY alpha beta
  end.

(** Fuel for a search that starts at [depth]. *)
Definition search_fuel (depth : Z) : nat := S (Z.to_nat (MAX_DEPTH - depth)).

(** ** The search without its [break] statements

    The two procedures with every child of every node visited: the same
    cutoff, the same evaluator, the same expectation at insertion nodes.
    As in the source, a player node starts from [-MAX_UTILITY] and an
    insertion node from [MAX_UTILITY], and a node without a successor
    keeps that value. *)

Fixpoint best_of (better : Z -> Z -> Z) (value : Grid -> option Z)
         (children : list Grid) (best : Z) : option Z :=
  match children with
  | [] => Some best
  | child :: children' =>
      match value child with
      | None => None
      | Some v => best_of better value children' (better best v)
      end
  end.

(** Expected value of inserting a tile at [a_cell]: the weighted sum of the
    children's values, floor-divided by the total weight. *)
Fixpoint expectation (value : Grid -> option Z) (grid : Grid) (a_cell : Position)
         (items : list (Z * Z)) (total weight : Z) : option Z :=
  match items with
  | [] => Some (total / weight)
  | (tile, proba) :: items' =>
      match value (setCellValue grid a_cell tile) with
      | None => None
      | Some v => expectation value grid a_cell items' (total + proba * v) (weight + proba)
      end
  end.

Fixpoint best_expected (value : Grid -> option Z) (grid : Grid)
         (cells : list Position) (best : Z) : option Z :=
  match cells with
  | [] => Some best
  | a_cell :: cells' =>
      match expectation value grid a_cell TILE_VALUE_PROBA 0 0 with
      | None => None
      | Some v => best_expected value grid cells' (Z.min best v)
      end
  end.

Fixpoint minimax_max (fuel : nat) (grid : Grid) (depth : Z) {struct fuel} : option Z :=
  match fuel with
  | O => None
  | S fuel' =>
      if cutoff grid depth then Some (__eval grid)
      else best_of Z.max (fun child => minimax_min fuel' child (depth + 1))
                   (List.map (move grid) (getAvailableMoves grid)) (- MAX_UTILITY)
  end
with minimax_min (fuel : nat) (grid : Grid) (depth : Z) {struct fuel} : option Z :=
  match fuel with
  | O => None
  | S fuel' =>
      if cutoff grid depth then Some (__eval grid)
      else best_expected (fun child => minimax_max fuel' child (depth + 1))
                         grid (getAvailableCells grid) MAX_UTILITY
  end.

(** ** Depth-bounded minimax, as the design describes it

    The unpruned reference of the design: a call at the cutoff, and a call
    on a board with no legal move or no empty cell, is a leaf worth
    [evaluate(board)]; a player node is worth the largest of its
    children, an insertion node the smallest expected utility of its
    cells.  No initial value takes part. *)

Definition best_child (better : Z -> Z -> Z) (value : Grid -> option Z)
           (children : list Grid) (leaf : Z) : option Z :=
  match children with
  | [] => Some leaf
  | child :: children' =>
      match value child with
      | None => None
      | Some v => best_of better value children' v
      end
  end.

Definition least_expected (value : Grid -> option Z) (grid : Grid)
           (cells : list Position) (leaf : Z) : option Z :=
  match cells with
  | [] => Some leaf
  | a_cell :: cells' =>
      match expectation value grid a_cell TILE_VALUE_PROBA 0 0 with
      | None => None
      | Some v => best_expected value grid cells' v
      end
  end.

Fixpoint spec_minimax_max (fuel : nat) (grid : Grid) (depth : Z) {struct fuel} : option Z :=
  match fuel with
  | O => None
  | S fuel' =>
      if cutoff grid depth then Some (__eval grid)
      else best_child Z.max (fun child => spec_minimax_min fuel' child (depth + 1))
                      (List.map (move grid) (getAvailableMoves grid)) (__eval grid)
  end
with spec_minimax_min (fuel : nat) (grid : Grid) (depth : Z) {struct fuel} : option Z :=
  match fuel with
  | O => None
  | S fuel' =>
      if cutoff grid depth then Some (__eval grid)
      else least_expected (fun child => spec_minimax_max fuel' child (depth + 1))
                          grid (getAvailableCells grid) (__eval grid)
  end.

(** The utility of the board fits between the two initial values. *)
Definition utility_in_range (g : Grid) : bool :=
  (- MAX_UTILITY <=? __eval g) && (__eval g <=? MAX_UTILITY).

Definition nonempty {A : Type} (l : list A) : bool :=
  match l with
  | [] => false
  | _ :: _ => true
  end.

(** The game tree below a node is plain when every node of it above the
    cutoff has a successor, a legal shift at a player node and an empty
    cell at an insertion node, and the utility of every board at the
    cutoff is in range. *)
Fixpoint plain_max (fuel : nat) (grid : Grid) (depth : Z) {struct fuel} : bool :=
  match fuel with
  | O => false
  | S fuel' =>
      if cutoff grid depth then utility_in_range grid
      else nonempty (getAvailableMoves grid) &&
           forallb (fun a_move => plain_min fuel' (move grid a_move) (depth + 1))
                   (getAvailableMoves grid)
  end
with plain_min (fuel : nat) (grid : Grid) (depth : Z) {struct fuel} : bool :=
  match fuel with
  | O => false
  | S fuel' =>
      if cutoff grid depth then utility_in_range grid
      else nonempty (getAvailableCells grid) &&
           forallb (fun a_cell =>
                      forallb (fun item =>
                                 plain_max fuel' (setCellValue grid a_cell (fst item)) (depth + 1))
                              TILE_VALUE_PROBA)
                   (getAvailableCells grid)
  end.

(** ** Boards as objects

    In the source a board is a mutable object: [move] and [setCellValue]
    change it in place and [clone] allocates a new one.  The store holds
    the boards allocated so far; a reference is an index into it.  A
    computation maps a store to a result and a new store, or to [None]
    when it runs out of fuel or follows a reference that was never
    allocated. *)

Definition ref : Type := nat.
Definition store : Type := list Grid.
Definition comp (A : Type) : Type := store -> option (A * store).

Definition ret {A : Type} (a : A) : comp A := fun s => Some (a, s).

Definition bind {A B : Type} (c : comp A) (k : A -> comp B) : comp B :=
  fun s => match c s with
           | Some (a, s') => k a s'
           | None => None
           end.

Notation "x <- c ;; k" := (bind c (fun x => k))
  (at level 61, c at next level, right associativity).
Notation "' pat <- c ;; k" := (bind c (fun x => match x with pat => k end))
  (at level 61, pat pattern, c at next level, right associativity).

(** Reading a method of the object [r] that does not change it. *)
Definition query {A : Type} (r : ref) (method : Grid -> A) : comp A :=
  fun s => match nth_error s r with
           | Some g => Some (method g, s)
           | None => None
           end.

(** Running a method of the object [r] that changes it in place. *)
Definition mutate (r : ref) (method : Grid -> Grid) : comp unit :=
  fun s => match nth_error s r with
           | Some g => Some (tt, list_set s r (method g))
           | None => None
           end.

(** [r.clone()]: a new object, holding a copy of [r]. *)
Definition new_clone (r : ref) : comp ref :=
  fun s => match nth_error s r with
           | Some g => Some (length s, s ++ [clone g])
           | None => None
           end.

Set Warnings "-register-all".

(** The probe: which calls of the two search procedures a call makes.  A
    call that returns at its cutoff test is [Static]; one that enters its
    loop is [Searched], with the calls its loop made, in order.  Each
    node records the board the call was given. *)
Inductive Role : Type := Maximizing | Minimizing.

Inductive call : Type :=
| Static (role : Role) (depth : Z) (board : Grid)
| Searched (role : Role) (depth : Z) (board : Grid) (subcalls : list call).

Fixpoint obj_maximize_loop (minimize : ref -> Z -> Z -> Z -> comp (minimize_result * call))
         (grid : ref) (depth : Z) (moves : list Direction)
         (max_move : option Direction) (max_utility alpha beta : Z) (calls : list call)
  : comp (maximize_result * list call) :=
  match moves with
  | [] => ret ((max_move, max_utility), calls)
  | a_move :: moves' =>
      grid_copy <- new_clone grid ;;
      _ <- mutate grid_copy (fun g => move g a_move) ;;
      '((_, utility), c) <- minimize grid_copy (depth + 1) alpha beta ;;
      let max_move := if utility >? max_utility then Some a_move else max_move in
      let max_utility := if utility >? max_utility then utility else max_utility in
      if utility >=? beta then ret ((max_move, max_utility), calls ++ [c])
      else
        let alpha := if utility >? alpha then utility else alpha in
        obj_maximize_loop minimize grid depth moves' max_move max_utility alpha beta
                          (calls ++ [c])
  end.

Fixpoint obj_expected_loop (maximize : ref -> Z -> Z -> Z -> comp (maximize_result * call))
         (grid_copy : ref) (a_cell : Position) (depth alpha beta : Z)
         (items : list (Z * Z)) (utility freq : Z) (calls : list call)
  : comp (Z * Z * list call) :=
  match items with
  | [] => ret (utility, freq, calls)
  | (value, proba) :: items' =>
      _ <- mutate grid_copy (fun g => setCellValue g a_cell value) ;;
      '((_, cond_utility), c) <- maximize grid_copy (depth + 1) alpha beta ;;
      obj_expected_loop maximize grid_copy a_cell depth alpha beta items'
                        (utility + proba * cond_utility) (freq + proba) (calls ++ [c])
  end.

Fixpoint obj_minimize_loop (maximize : ref -> Z -> Z -> Z -> comp (maximize_result * call))
         (grid : ref) (depth : Z) (cells : list Position)
         (min_move : option Position) (min_utility alpha beta : Z) (calls : list call)
  : comp (minimize_result * list call) :=
  match cells with
  | [] => ret ((min_move, min_utility), calls)
  | a_cell :: cells' =>
      grid_copy <- new_clone grid ;;
      '(utility, freq, calls) <-
        obj_expected_loop maximize grid_copy a_cell depth alpha beta TILE_VALUE_PROBA 0 0 calls ;;
      let utility := utility / freq in
      let min_move := if utility <? min_utility then Some a_cell else min_move in
      let min_utility := if utility <? min_utility then utility else min_utility in
      if utility <=? alpha then ret ((min_move, min_utility), calls)
      else
        let beta := if utility <? beta then utility else beta in
        obj_minimize_loop maximize grid depth cells' min_move min_utility alpha beta calls
  end.

Fixpoint obj_maximize (fuel : nat) (grid : ref) (depth alpha beta : Z) {struct fuel}
  : comp (maximize_result * call) :=
  match fuel with
  | O => fun _ => None
  | S fuel' =>
      board <- query grid (fun g => g) ;;
      stop <- query grid (fun g => cutoff g depth) ;;
      if stop then
        utility <- query grid __eval ;;
        ret ((None, utility), Static Maximizing depth board)
      else
        moves <- query grid getAvailableMoves ;;
        '(result, calls) <-
          obj_maximize_loop (obj_minimize fuel') grid depth moves
                            None (- MAX_UTILITY) alpha beta [] ;;
        ret (result, Searched Maximizing depth board calls)
  end
with obj_minimize (fuel : nat) (grid : ref) (depth alpha beta : Z) {struct fuel}
  : comp (minimize_result * call) :=
  match fuel with
  | O => fun _ => None
  | S fuel' =>
      board <- query grid (fun g => g) ;;
      stop <- query grid (fun g => cutoff g depth) ;;
      if stop then
        utility <- query grid __eval ;;
        ret ((None, utility), Static Minimizing depth board)
      else
        cells <- query grid getAvailableCells ;;
        '(result, calls) <-
          obj_minimize_loop (obj_maximize fuel') grid depth cells
                            None MAX_UTILITY alpha beta [] ;;
        ret (result, Searched Minimizing depth board calls)
  end.

(** ** PlayerAI: [getMove] *)

Inductive exception : Type := ValueError | IndexError.

Inductive outcome (A : Type) : Type :=
| Returns (a : A)
| Raises (e : exception).
Arguments Returns {A} a.
Arguments Raises {A} e.

(** [random.randint(a, b)]: an integer between [a] and [b], both included,
    or [ValueError] when the range is empty.  [entropy] is the number the
    generator draws; over [b - a + 1] consecutive draws every value of the
    range comes up once. *)
Definition randint (entropy a b : Z) : outcome Z :=
  if b <? a then Raises ValueError else Returns (a + entropy mod (b - a + 1)).

(** [moves[i]] for an index that is not negative. *)
Definition list_index {A : Type} (l : list A) (i : Z) : outcome A :=
  match nth_error l (Z.to_nat i) with
  | Some x => Returns x
  | None => Raises IndexError
  end.

Definition getMove (entropy : Z) (grid : ref) : comp (outcome Direction * call) :=
  '((a_move, _), probe) <-
    obj_maximize (search_fuel 0) grid 0 (- MAX_UTILITY) MAX_UTILITY ;;
  match a_move with
  | None =>
      moves <- query grid getAvailableMoves ;;
      match randint entropy 0 (Z.of_nat (length moves) - 1) with
      | Returns i => ret (list_index moves i, probe)
      | Raises e => ret (Raises e, probe)
      end
  | Some a_move => ret (Returns a_move, probe)
  end.

(** ** Notions used in the statements *)

(** The loop test of [__find_farthest_pos]. *)
Definition scan_continues (g : Grid) (pos : Position) : bool :=
  negb (crossBound g pos) && canInsert g pos.

(** The tile values of a board, cell by cell. *)
Definition tiles (g : Grid) : list Z :=
  List.map (fun pos => cell g (fst pos) (snd pos)) (positions (size g)).

(** The number of zero-valued cells. *)
Definition emptyCount (g : Grid) : Z := Z.of_nat (count_occ Z.eq_dec (tiles g) 0).

(** The largest tile value (0 on a board without cells). *)
Definition maxTile (g : Grid) : Z := fold_right Z.max 0 (tiles g).

(** Every entry of the monotonicity dictionary is at most zero. *)
Definition mono_nonpositive (m : mono_dict) : Prop := forall d, m d <= 0.

(** [sound alpha beta v m] relates the value [v] a pruned call returns
    for the window [(alpha, beta)] to the minimax value [m] of the same
    node: inside the window the two agree, and a value at or outside a
    bound is a bound for [m] on that side. *)
Definition sound (alpha beta v m : Z) : Prop :=
  (v <= alpha -> m <= v) /\ (beta <= v -> v <= m) /\ (alpha < v < beta -> m = v).

(** A procedure on objects refines a procedure on boards: called on an
    object that holds the board, it returns the same result and only
    adds boards to the store. *)
Definition refines {R : Type} (obj : ref -> Z -> Z -> Z -> comp (R * call))
           (pure : Grid -> Z -> Z -> Z -> option R) : Prop :=
  forall s r g depth alpha beta res,
    nth_error s r = Some g ->
    pure g depth alpha beta = Some res ->
    exists probe s', obj r depth alpha beta s = Some ((res, probe), s ++ s').

Definition Role_eqb (a b : Role) : bool :=
  match a, b with
  | Maximizing, Maximizing | Minimizing, Minimizing => true
  | _, _ => false
  end.

Definition other (role : Role) : Role :=
  match role with
  | Maximizing => Minimizing
  | Minimizing => Maximizing
  end.

Definition call_role (c : call) : Role :=
  match c with Static role _ _ | Searched role _ _ _ => role end.

Definition call_depth (c : call) : Z :=
  match c with Static _ depth _ | Searched _ depth _ _ => depth end.

Definition call_board (c : call) : Grid :=
  match c with Static _ _ board | Searched _ _ board _ => board end.

Definition is_static (c : call) : bool :=
  match c with Static _ _ _ => true | Searched _ _ _ _ => false end.

(** A probe is well nested when, at every call in it: the depth is at most
    [MAX_DEPTH]; the call returned at its cutoff test exactly when the test
    held of its board and depth; and each call made from its loop is a call
    of the other procedure, at the depth of the caller plus one. *)
Fixpoint well_nested (c : call) : bool :=
  match c with
  | Static _ depth board => (depth <=? MAX_DEPTH) && cutoff board depth
  | Searched role depth board subcalls =>
      (depth <=? MAX_DEPTH) && negb (cutoff board depth) &&
      (fix all (l : list call) : bool :=
         match l with
         | [] => true
         | c' :: l' =>
             Role_eqb (call_role c') (other role) && (call_depth c' =? depth + 1) &&
             well_nested c' && all l'
         end) subcalls
  end.

Definition subcall_ok (role : Role) (depth : Z) (c : call) : bool :=
  Role_eqb (call_role c) (other role) && (call_depth c =? depth + 1) && well_nested c.

(** What is required of the probe of a call of [role] at [depth] on the
    object [r]. *)
Definition probe_ok (role : Role) (depth : Z) (s : store) (r : ref) (probe : call) : Prop :=
  call_role probe = role /\ call_depth probe = depth /\
  nth_error s r = Some (call_board probe) /\
  well_nested probe = true /\
  is_static probe = cutoff (call_board probe) depth.

(** What [getMove] does once the search has reported no move. *)
Definition random_move (entropy : Z) (moves : list Direction) : outcome Direction :=
  match randint entropy 0 (Z.of_nat (length moves) - 1) with
  | Returns i => list_index moves i
  | Raises e => Raises e
  end.

(** A board without a legal move and without an empty cell, below the target. *)
Definition dead_board : Grid := {| size := 2; map := [[2; 4]; [4; 2]] |}.

(** A board that has reached the target and still has legal moves. *)
Definition won_board : Grid := {| size := 2; map := [[2048; 0]; [4; 2]] |}.

(** ** Notions used in the further statements *)

(** The number of zero bits below the lowest set bit. *)
Fixpoint trailing_zeros (p : positive) : nat :=
  match p with
  | xO q => S (trailing_zeros q)
  | _ => O
  end.

(** [P] holds of every element of the list. *)
Definition All {A : Type} (P : A -> Prop) : list A -> Prop :=
  fix all (l : list A) : Prop :=
    match l with
    | [] => True
    | x :: l' => P x /\ all l'
    end.

(** The sum of [f] over the list. *)
Definition sum_of {A : Type} (f : A -> nat) : list A -> nat :=
  fix sum (l : list A) : nat :=
    match l with
    | [] => O
    | x :: l' => (f x + sum l')%nat
    end.

(** The boards one ply below [board]: for the player, the board after each
    legal shift; for the insertion, the board with each modelled tile
    value in each empty cell.  Both in the order of the loops. *)
Definition successors (role : Role) (board : Grid) : list Grid :=
  match role with
  | Maximizing => List.map (move board) (getAvailableMoves board)
  | Minimizing =>
      flat_map (fun a_cell =>
                  List.map (fun item => setCellValue board a_cell (fst item)) TILE_VALUE_PROBA)
               (getAvailableCells board)
  end.

(** At every call of the probe that entered its loop, the boards of the
    calls it made are the first successors of its own board, in order. *)
Fixpoint explores (c : call) : Prop :=
  match c with
  | Static _ _ _ => True
  | Searched role _ board subcalls =>
      (exists unvisited,
          List.map call_board subcalls ++ unvisited = successors role board) /\
      (fix all (l : list call) : Prop :=
         match l with
         | [] => True
         | x :: l' => explores x /\ all l'
         end) subcalls
  end.

(** The number of calls in a probe. *)
Fixpoint count_calls (c : call) : nat :=
  match c with
  | Static _ _ _ => 1%nat
  | Searched _ _ _ subcalls =>
      S ((fix sum (l : list call) : nat :=
            match l with
            | [] => O
            | x :: l' => (count_calls x + sum l')%nat
            end) subcalls)
  end.

(** The most calls a search with [fuel] levels left can make on a board
    of [n] rows: at most four shifts at a player node, at most [n * n]
    empty cells at an insertion node. *)
Fixpoint max_calls (fuel n : nat) : nat :=
  match fuel with
  | O => O
  | S fuel' => S (4 * min_calls fuel' n)
  end
with min_calls (fuel n : nat) : nat :=
  match fuel with
  | O => O
  | S fuel' => S (n * n * max_calls fuel' n)
  end.

(** A refinement that also accounts for the probe and the store: the
    probe starts at the board of the object and explores its successors,
    the call allocates one board for each call below it, and it makes at
    most [bnd n] calls on a board of [n] rows. *)
Definition refines_exploring {R : Type} (bnd : nat -> nat)
           (obj : ref -> Z -> Z -> Z -> comp (R * call))
           (pure : Grid -> Z -> Z -> Z -> option R) : Prop :=
  forall s r g depth alpha beta res,
    nth_error s r = Some g ->
    pure g depth alpha beta = Some res ->
    exists probe s',
      obj r depth alpha beta s = Some ((res, probe), s ++ s') /\
      call_board probe = g /\ explores probe /\
      S (length s') = count_calls probe /\
      (count_calls probe <= bnd (Z.to_nat (size g)))%nat.

(** A board with legal shifts, each of which leaves one empty cell and,
    once a 2 is inserted there, a board without a legal shift. *)
Definition cornered_board : Grid := {| size := 2; map := [[4; 8]; [8; 8]] |}.

(** A board with a single tile of 2^62, whose utility exceeds
    [MAX_UTILITY]. *)
Definition huge_tile_board : Grid :=
  {| size := 3; map := [[4611686018427387904; 0; 0]; [0; 0; 0]; [0; 0; 0]] |}.

(** A board that has reached the target and has no legal shift. *)
Definition dead_won_board : Grid := {| size := 2; map := [[2048; 4]; [4; 2]] |}.

(** A board whose occupied cells all hold the same value. *)
Definition equal_tiles_board : Grid := {| size := 2; map := [[4; 0]; [4; 4]] |}.

(** A full board that increases along every row and every column. *)
Definition staircase_board : Grid := {| size := 2; map := [[2; 4]; [4; 8]] |}.

(** * Properties *)

(** ** Lists, ranges and positions *)

Lemma fold_left_invariant {A B : Type} (P : A -> Prop) (f : A -> B -> A) (l : list B) :
  (forall a b, P a -> P (f a b)) -> forall a, P a -> P (fold_left f l a).
Proof.
  intros Hstep. induction l as [|b l IH]; simpl; intros a Ha.
  - exact Ha.
  - apply IH, Hstep, Ha.
Qed.

Lemma in_range (n i : Z) : In i (range n) <-> 0 <= i < n.
Proof.
  unfold range. rewrite in_map_iff. split.
  - intros [k [Hk Hin]]. apply in_seq in Hin. lia.
  - intros Hi. exists (Z.to_nat i). split; [lia|]. apply in_seq. lia.
Qed.

Lemma in_positions (n : Z) (pos : Position) :
  In pos (positions n) <-> 0 <= fst pos < n /\ 0 <= snd pos < n.
Proof.
  unfold positions. rewrite in_flat_map. split.
  - intros [i [Hi Hin]]. apply in_map_iff in Hin. destruct Hin as [j [Hj Hin]].
    subst pos. simpl. apply in_range in Hi. apply in_range in Hin. lia.
  - intros [Hi Hj]. exists (fst pos). split; [apply in_range; exact Hi|].
    apply in_map_iff. exists (snd pos). split; [destruct pos; reflexivity|].
    apply in_range. exact Hj.
Qed.

Lemma length_range (n : Z) : length (range n) = Z.to_nat n.
Proof. unfold range. rewrite length_map, length_seq. reflexivity. Qed.

Lemma length_positions (n : Z) : length (positions n) = (Z.to_nat n * Z.to_nat n)%nat.
Proof.
  unfold positions.
  assert (H : forall rows : list Z,
             length (flat_map (fun i : Z => List.map (fun j : Z => (i, j)) (range n)) rows)
             = (length rows * Z.to_nat n)%nat).
  { induction rows as [|i rows IH]; simpl; [reflexivity|].
    rewrite length_app, length_map, length_range, IH. reflexivity. }
  rewrite H, length_range. reflexivity.
Qed.

Lemma crossBound_positions (g : Grid) (pos : Position) :
  In pos (positions (size g)) -> crossBound g pos = false.
Proof.
  intros Hin. apply in_positions in Hin. unfold crossBound.
  destruct (Z.ltb_spec (fst pos) 0), (Z.leb_spec (size g) (fst pos)),
    (Z.ltb_spec (snd pos) 0), (Z.leb_spec (size g) (snd pos)); simpl; try reflexivity; lia.
Qed.

Lemma getCellValue_positions (g : Grid) (pos : Position) :
  In pos (positions (size g)) -> getCellValue g pos = Some (cell g (fst pos) (snd pos)).
Proof. intros Hin. unfold getCellValue. rewrite crossBound_positions; trivial. Qed.

(** ** The exponent function *)

Lemma count_ones_double_succ (x : Z) : 0 <= x -> count_ones (2 * x + 1) = 1 + count_ones x.
Proof. intros Hx. destruct x as [|p|p]; [reflexivity|reflexivity|lia]. Qed.

Lemma count_ones_ones (n : nat) : count_ones (Z.ones (Z.of_nat n)) = Z.of_nat n.
Proof.
  induction n as [|n IH]; [reflexivity|].
  assert (Hstep : Z.ones (Z.of_nat (S n)) = 2 * Z.ones (Z.of_nat n) + 1).
  { rewrite !Z.ones_equiv, Nat2Z.inj_succ, Z.pow_succ_r by lia. lia. }
  rewrite Hstep, count_ones_double_succ, IH; [lia|].
  rewrite Z.ones_equiv. pose proof (Z.pow_pos_nonneg 2 (Z.of_nat n)). lia.
Qed.

Lemma lxor_pow2_pred (k : Z) : 0 <= k -> Z.lxor (2 ^ k) (2 ^ k - 1) = Z.ones (k + 1).
Proof.
  intros Hk.
  assert (Hdisjoint : Z.land (2 ^ k) (2 ^ k - 1) = 0).
  { apply Z.bits_inj'. intros n Hn. rewrite Z.land_spec, Z.bits_0.
    rewrite Z.pow2_bits_eqb by lia. replace (2 ^ k - 1) with (Z.ones k) by (rewrite Z.ones_equiv; lia).
    destruct (Z.eqb_spec k n) as [->|Hne]; simpl; [|reflexivity].
    apply Z.ones_spec_high. lia. }
  rewrite <- Z.add_nocarry_lxor by exact Hdisjoint.
  rewrite Z.ones_equiv, Z.pow_add_r by lia. lia.
Qed.

Lemma log2_power_of_two (k : Z) : 0 <= k -> __log2 (2 ^ k) = k + 1.
Proof.
  intros Hk. unfold __log2.
  pose proof (Z.pow_pos_nonneg 2 k) as Hpos.
  destruct (Z.eqb_spec (2 ^ k) 0) as [H0|_]; [lia|]. simpl.
  rewrite lxor_pow2_pred by exact Hk.
  replace (k + 1) with (Z.of_nat (Z.to_nat (k + 1))) at 1 by lia.
  rewrite count_ones_ones. lia.
Qed.

(** ** Smoothness and monotonicity never raise the utility *)

Lemma smoothness_nonpositive (g : Grid) : __smoothness g <= 0.
Proof.
  unfold __smoothness.
  apply (fold_left_invariant (fun s => s <= 0)); [|lia].
  intros s start_pos Hs.
  destruct (negb (canInsert g start_pos)); [|exact Hs].
  apply (fold_left_invariant (fun s => s <= 0)); [|exact Hs].
  intros s' vec Hs'. destruct (getCellValue g _); lia.
Qed.

Lemma mono_add_nonpositive (m : mono_dict) (k : Direction) (v : Z) :
  mono_nonpositive m -> v <= 0 -> mono_nonpositive (mono_add m k v).
Proof.
  intros Hm Hv d. unfold mono_add. specialize (Hm d).
  destruct (Direction_eqb d k); lia.
Qed.

Lemma mono_col_loop_nonpositive (fuel : nat) (g : Grid) (col : Z) :
  forall current_row next_row m,
    mono_nonpositive m -> mono_nonpositive (mono_col_loop fuel g col current_row next_row m).
Proof.
  induction fuel as [|fuel IH]; simpl; intros current_row next_row m Hm; [exact Hm|].
  destruct (next_row <? size g); [|exact Hm].
  apply IH.
  match goal with |- context [if ?a <? ?b then _ else _] => destruct (Z.ltb_spec a b) end;
    apply mono_add_nonpositive; trivial; lia.
Qed.

Lemma mono_row_loop_nonpositive (fuel : nat) (g : Grid) (row : Z) :
  forall current_col next_col m,
    mono_nonpositive m -> mono_nonpositive (mono_row_loop fuel g row current_col next_col m).
Proof.
  induction fuel as [|fuel IH]; simpl; intros current_col next_col m Hm; [exact Hm|].
  destruct (next_col <? size g); [|exact Hm].
  apply IH.
  match goal with |- context [if ?a <? ?b then _ else _] => destruct (Z.ltb_spec a b) end;
    apply mono_add_nonpositive; trivial; lia.
Qed.

Lemma mono_accumulate_nonpositive (g : Grid) : mono_nonpositive (mono_accumulate g).
Proof.
  unfold mono_accumulate.
  apply (fold_left_invariant mono_nonpositive).
  - intros m row Hm. apply mono_row_loop_nonpositive, Hm.
  - apply (fold_left_invariant mono_nonpositive).
    + intros m col Hm. apply mono_col_loop_nonpositive, Hm.
    + intros d. unfold mono_zero. lia.
Qed.

Lemma monotonicity_nonpositive (g : Grid) : __monotonicity g <= 0.
Proof.
  unfold __monotonicity. pose proof (mono_accumulate_nonpositive g) as H.
  pose proof (H UP). pose proof (H DOWN). pose proof (H LEFT). pose proof (H RIGHT). lia.
Qed.

(** ** The loops of the evaluator run to completion

    The fuel of the model is never the reason a scan stops: a scan down or
    right ends at a position that fails the loop test, and giving the
    loops of [__monotonicity] more fuel does not change their result. *)

Lemma scan_continues_inside (g : Grid) (pos : Position) :
  scan_continues g pos = true -> fst pos < size g /\ snd pos < size g.
Proof.
  unfold scan_continues, crossBound. intros H.
  apply andb_prop in H. destruct H as [H _]. apply negb_true_iff in H.
  destruct (Z.leb_spec (size g) (fst pos)), (Z.leb_spec (size g) (snd pos));
    rewrite ?orb_true_r in H; simpl in H; try discriminate; lia.
Qed.

Lemma find_farthest_loop_down (fuel : nat) (g : Grid) :
  forall next_pos,
    (Z.to_nat (size g - fst next_pos) <= fuel)%nat ->
    scan_continues g (find_farthest_loop fuel g next_pos DOWN_VEC) = false.
Proof.
  induction fuel as [|fuel IH]; simpl; intros next_pos Hfuel.
  - destruct (scan_continues g next_pos) eqn:E; [|reflexivity].
    apply scan_continues_inside in E. lia.
  - fold (scan_continues g next_pos).
    destruct (scan_continues g next_pos) eqn:E; [|exact E].
    apply IH. apply scan_continues_inside in E. simpl. lia.
Qed.

Lemma find_farthest_loop_right (fuel : nat) (g : Grid) :
  forall next_pos,
    (Z.to_nat (size g - snd next_pos) <= fuel)%nat ->
    scan_continues g (find_farthest_loop fuel g next_pos RIGHT_VEC) = false.
Proof.
  induction fuel as [|fuel IH]; simpl; intros next_pos Hfuel.
  - destruct (scan_continues g next_pos) eqn:E; [|reflexivity].
    apply scan_continues_inside in E. lia.
  - fold (scan_continues g next_pos).
    destruct (scan_continues g next_pos) eqn:E; [|exact E].
    apply IH. apply scan_continues_inside in E. simpl. lia.
Qed.

Lemma find_farthest_fuel (g : Grid) (start_pos direction_vec : Position) :
  direction_vec = DOWN_VEC \/ direction_vec = RIGHT_VEC ->
  0 <= fst start_pos -> 0 <= snd start_pos ->
  scan_continues g (__find_farthest_pos g start_pos direction_vec) = false.
Proof.
  intros [-> | ->] Hrow Hcol; unfold __find_farthest_pos.
  - apply find_farthest_loop_down. simpl. lia.
  - apply find_farthest_loop_right. simpl. lia.
Qed.

Lemma find_farthest_loop_advances (fuel : nat) (g : Grid) (direction_vec : Position) :
  0 <= fst direction_vec -> 0 <= snd direction_vec ->
  forall next_pos,
    fst next_pos <= fst (find_farthest_loop fuel g next_pos direction_vec) /\
    snd next_pos <= snd (find_farthest_loop fuel g next_pos direction_vec).
Proof.
  intros Hrow Hcol. induction fuel as [|fuel IH]; simpl; intros next_pos; [lia|].
  destruct (negb (crossBound g next_pos) && canInsert g next_pos); [|lia].
  specialize (IH (pos_add next_pos direction_vec)). simpl in IH. lia.
Qed.

Lemma mono_col_fuel (g : Grid) (col : Z) (extra : nat) :
  forall fuel x m,
    (Z.to_nat (size g - x) < fuel)%nat ->
    mono_col_loop (fuel + extra) g col x x m = mono_col_loop fuel g col x x m.
Proof.
  induction fuel as [|fuel IH]; intros x m Hfuel; [lia|]. simpl.
  destruct (Z.ltb_spec x (size g)) as [Hx|Hx]; [|reflexivity].
  apply IH.
  pose proof (find_farthest_loop_advances (Z.to_nat (size g)) g DOWN_VEC ltac:(simpl; lia)
                ltac:(simpl; lia) (pos_add (x, col) DOWN_VEC)) as [Hadv _].
  unfold __find_farthest_pos. simpl in Hadv |- *. lia.
Qed.

Lemma mono_row_fuel (g : Grid) (row : Z) (extra : nat) :
  forall fuel x m,
    (Z.to_nat (size g - x) < fuel)%nat ->
    mono_row_loop (fuel + extra) g row x x m = mono_row_loop fuel g row x x m.
Proof.
  induction fuel as [|fuel IH]; intros x m Hfuel; [lia|]. simpl.
  destruct (Z.ltb_spec x (size g)) as [Hx|Hx]; [|reflexivity].
  apply IH.
  pose proof (find_farthest_loop_advances (Z.to_nat (size g)) g RIGHT_VEC ltac:(simpl; lia)
                ltac:(simpl; lia) (pos_add (row, x) RIGHT_VEC)) as [_ Hadv].
  unfold __find_farthest_pos. simpl in Hadv |- *. lia.
Qed.

(** ** The evaluator as a weighted sum *)

Lemma tile_stats_fold (g : Grid) (l : list Position) :
  (forall pos, In pos l -> In pos (positions (size g))) ->
  forall ts,
    0 <= stat_max ts ->
    let values := List.map (fun pos => cell g (fst pos) (snd pos)) l in
    fold_left (tile_stats_step g) l ts =
    {| stat_max := Z.max (stat_max ts) (fold_right Z.max 0 values);
       stat_empty_count := stat_empty_count ts + Z.of_nat (count_occ Z.eq_dec values 0) |}.
Proof.
  induction l as [|pos l IH]; intros Hin ts Hts; cbn [List.map fold_left fold_right count_occ].
  - destruct ts as [m e]; simpl in *. f_equal; lia.
  - cbv zeta in IH. unfold tile_stats_step at 2.
    rewrite getCellValue_positions by (apply Hin; left; reflexivity).
    set (v := cell g (fst pos) (snd pos)).
    destruct ts as [m e]; simpl in Hts |- *.
    destruct (Z.ltb_spec m v) as [Hlt|Hge]; destruct (Z.eqb_spec v 0) as [Hz|Hnz];
      destruct (Z.eq_dec v 0) as [Hz'|Hnz']; try contradiction;
      (rewrite IH; [|intros p Hp; apply Hin; right; exact Hp|simpl; lia]); simpl; f_equal; lia.
Qed.

Lemma eval_stats (g : Grid) :
  fold_left (tile_stats_step g) (positions (size g)) {| stat_max := 0; stat_empty_count := 0 |}
  = {| stat_max := maxTile g; stat_empty_count := emptyCount g |}.
Proof.
  rewrite tile_stats_fold; [|auto|simpl; lia]. simpl.
  unfold maxTile, emptyCount, tiles. f_equal.
  assert (H : forall l, 0 <= fold_right Z.max 0 l) by (induction l; simpl; lia).
  specialize (H (List.map (fun pos => cell g (fst pos) (snd pos)) (positions (size g)))). lia.
Qed.

Lemma eval_weighted_sum (g : Grid) :
  __eval g = 10 * __smoothness g + 20 * __monotonicity g + 80 * emptyCount g + 10 * maxTile g.
Proof. unfold __eval. cbv zeta. rewrite eval_stats. reflexivity. Qed.

Lemma getMaxTile_maxTile (g : Grid) : getMaxTile g = maxTile g.
Proof.
  unfold getMaxTile, maxTile, tiles.
  generalize (positions (size g)) as l. intros l.
  assert (H : forall l a, 0 <= a ->
             fold_left (fun maxTile pos => Z.max maxTile (cell g (fst pos) (snd pos))) l a
             = Z.max a (fold_right Z.max 0 (List.map (fun pos => cell g (fst pos) (snd pos)) l))).
  { induction l0 as [|pos l0 IH]; intros a Ha; simpl; [lia|]. rewrite IH by lia. lia. }
  rewrite H by lia.
  assert (H0 : forall l : list Z, 0 <= fold_right Z.max 0 l) by (induction l0; simpl; lia).
  specialize (H0 (List.map (fun pos => cell g (fst pos) (snd pos)) l)). lia.
Qed.

Lemma getAvailableCells_emptyCount (g : Grid) :
  Z.of_nat (length (getAvailableCells g)) = emptyCount g.
Proof.
  unfold getAvailableCells, emptyCount, tiles. f_equal.
  induction (positions (size g)) as [|pos l IH]; simpl; [reflexivity|].
  destruct (Z.eqb_spec (cell g (fst pos) (snd pos)) 0) as [Hz|Hnz];
    destruct (Z.eq_dec (cell g (fst pos) (snd pos)) 0); try contradiction; try congruence;
    simpl; rewrite IH; reflexivity.
Qed.

Lemma emptyCount_bound (g : Grid) : 0 <= emptyCount g <= Z.of_nat (Z.to_nat (size g) * Z.to_nat (size g)).
Proof.
  unfold emptyCount. split; [lia|].
  pose proof (count_occ_bound Z.eq_dec 0 (tiles g)) as H.
  unfold tiles in H at 2. rewrite length_map, length_positions in H. lia.
Qed.

(** ** The search returns *)

Lemma clone_eq (g : Grid) : clone g = g.
Proof. destruct g; reflexivity. Qed.

Lemma maximize_loop_total (minimize : Grid -> Z -> Z -> Z -> option minimize_result) (depth : Z) :
  (forall g alpha beta, exists r, minimize g (depth + 1) alpha beta = Some r) ->
  forall moves grid max_move max_utility alpha beta,
  exists r, maximize_loop minimize grid depth moves max_move max_utility alpha beta = Some r.
Proof.
  intros Hrec. induction moves as [|a_move moves IH]; intros; simpl; [eauto|].
  destruct (Hrec (move (clone grid) a_move) alpha beta) as [[c utility] ->].
  destruct (utility >=? beta); [eauto|]. apply IH.
Qed.

Lemma expected_loop_total (maximize : Grid -> Z -> Z -> Z -> option maximize_result) (depth : Z) :
  (forall g alpha beta, exists r, maximize g (depth + 1) alpha beta = Some r) ->
  forall items grid_copy a_cell alpha beta utility freq,
  exists r, expected_loop maximize grid_copy a_cell depth alpha beta items utility freq = Some r.
Proof.
  intros Hrec. induction items as [|[value proba] items IH]; intros; simpl; [eauto|].
  destruct (Hrec (setCellValue grid_copy a_cell value) alpha beta) as [[c cond_utility] ->].
  apply IH.
Qed.

Lemma minimize_loop_total (maximize : Grid -> Z -> Z -> Z -> option maximize_result) (depth : Z) :
  (forall g alpha beta, exists r, maximize g (depth + 1) alpha beta = Some r) ->
  forall cells grid min_move min_utility alpha beta,
  exists r, minimize_loop maximize grid depth cells min_move min_utility alpha beta = Some r.
Proof.
  intros Hrec. induction cells as [|a_cell cells IH]; intros; simpl; [eauto|].
  destruct (expected_loop_total maximize depth Hrec TILE_VALUE_PROBA (clone grid) a_cell
              alpha beta 0 0) as [[utility freq] Hexp].
  unfold TILE_VALUE_PROBA in Hexp. simpl in Hexp. rewrite Hexp.
  destruct (utility / freq <=? alpha); [eauto|]. apply IH.
Qed.

Lemma cutoff_false (g : Grid) (depth : Z) :
  cutoff g depth = false -> depth <> MAX_DEPTH /\ getMaxTile g <> TARGET_TILE_VALUE.
Proof.
  unfold cutoff, __is_terminal_state. intros H. apply orb_false_elim in H.
  destruct H as [Hd Ht]. apply Z.eqb_neq in Hd. apply Z.eqb_neq in Ht. auto.
Qed.

Lemma search_total (fuel : nat) :
  forall depth,
    depth <= MAX_DEPTH -> (Z.to_nat (MAX_DEPTH - depth) < fuel)%nat ->
    (forall g alpha beta, exists r, __maximize fuel g depth alpha beta = Some r) /\
    (forall g alpha beta, exists r, __minimize fuel g depth alpha beta = Some r).
Proof.
  induction fuel as [|fuel IH]; intros depth Hdepth Hfuel; [lia|].
  split; intros g alpha beta; simpl;
    destruct (cutoff g depth) eqn:Hcut; eauto;
    apply cutoff_false in Hcut; destruct Hcut as [Hd _];
    destruct (IH (depth + 1) ltac:(lia) ltac:(lia)) as [IHmax IHmin].
  - apply maximize_loop_total, IHmin.
  - apply minimize_loop_total, IHmax.
Qed.

Lemma search_fuel_enough (depth : Z) :
  depth <= MAX_DEPTH ->
  (forall g alpha beta, exists r, __maximize (search_fuel depth) g depth alpha beta = Some r) /\
  (forall g alpha beta, exists r, __minimize (search_fuel depth) g depth alpha beta = Some r).
Proof. intros Hd. apply search_total; [exact Hd|]. unfold search_fuel. lia. Qed.

(** More fuel does not change what a call returns. *)
Section MoreFuel.
Variable depth : Z.
Variables minimize minimize' : Grid -> Z -> Z -> Z -> option minimize_result.
Variables maximize maximize' : Grid -> Z -> Z -> Z -> option maximize_result.
Hypothesis minimize_extends :
  forall g alpha beta r, minimize g (depth + 1) alpha beta = Some r ->
                         minimize' g (depth + 1) alpha beta = Some r.
Hypothesis maximize_extends :
  forall g alpha beta r, maximize g (depth + 1) alpha beta = Some r ->
                         maximize' g (depth + 1) alpha beta = Some r.

Lemma maximize_loop_extends :
  forall moves grid max_move max_utility alpha beta r,
    maximize_loop minimize grid depth moves max_move max_utility alpha beta = Some r ->
    maximize_loop minimize' grid depth moves max_move max_utility alpha beta = Some r.
Proof.
  induction moves as [|a_move moves IH]; intros grid max_move max_utility alpha beta r; simpl;
    [trivial|].
  destruct (minimize (move (clone grid) a_move) (depth + 1) alpha beta) as [[c utility]|] eqn:E;
    [|discriminate].
  rewrite (minimize_extends _ _ _ _ E).
  destruct (utility >=? beta); [trivial|apply IH].
Qed.

Lemma expected_loop_extends :
  forall items grid_copy a_cell alpha beta utility freq r,
    expected_loop maximize grid_copy a_cell depth alpha beta items utility freq = Some r ->
    expected_loop maximize' grid_copy a_cell depth alpha beta items utility freq = Some r.
Proof.
  induction items as [|[value proba] items IH];
    intros grid_copy a_cell alpha beta utility freq r; simpl; [trivial|].
  destruct (maximize (setCellValue grid_copy a_cell value) (depth + 1) alpha beta)
    as [[c cond_utility]|] eqn:E; [|discriminate].
  rewrite (maximize_extends _ _ _ _ E). apply IH.
Qed.

Lemma minimize_loop_extends :
  forall cells grid min_move min_utility alpha beta r,
    minimize_loop maximize grid depth cells min_move min_utility alpha beta = Some r ->
    minimize_loop maximize' grid depth cells min_move min_utility alpha beta = Some r.
Proof.
  induction cells as [|a_cell cells IH]; intros grid min_move min_utility alpha beta r;
    cbn [minimize_loop]; [trivial|].
  destruct (expected_loop maximize (clone grid) a_cell depth alpha beta TILE_VALUE_PROBA 0 0)
    as [[utility freq]|] eqn:E; [|discriminate].
  rewrite (expected_loop_extends _ _ _ _ _ _ _ _ E).
  destruct (utility / freq <=? alpha); [trivial|apply IH].
Qed.
End MoreFuel.

Lemma search_more_fuel (fuel : nat) :
  (forall g depth alpha beta r,
      __maximize fuel g depth alpha beta = Some r ->
      __maximize (S fuel) g depth alpha beta = Some r) /\
  (forall g depth alpha beta r,
      __minimize fuel g depth alpha beta = Some r ->
      __minimize (S fuel) g depth alpha beta = Some r).
Proof.
  induction fuel as [|fuel [IHmax IHmin]]; [split; intros; discriminate|].
  split; intros g depth alpha beta r.
  - change (__maximize (S (S fuel)) g depth alpha beta)
      with (if cutoff g depth then Some (None, __eval g)
            else maximize_loop (__minimize (S fuel)) g depth (getAvailableMoves g)
                               None (- MAX_UTILITY) alpha beta).
    cbn [__maximize]. destruct (cutoff g depth); [trivial|].
    apply maximize_loop_extends. intros g' a b r'. apply IHmin.
  - change (__minimize (S (S fuel)) g depth alpha beta)
      with (if cutoff g depth then Some (None, __eval g)
            else minimize_loop (__maximize (S fuel)) g depth (getAvailableCells g)
                               None MAX_UTILITY alpha beta).
    cbn [__minimize]. destruct (cutoff g depth); [trivial|].
    apply minimize_loop_extends. intros g' a b r'. apply IHmax.
Qed.

(** ** Pruning against minimax *)

Lemma best_of_max_lower (value : Grid -> option Z) :
  (forall child, exists m, value child = Some m) ->
  forall children best, exists m, best_of Z.max value children best = Some m /\ best <= m.
Proof.
  intros Hval. induction children as [|child children IH]; intros best; simpl.
  - exists best. split; [reflexivity|lia].
  - destruct (Hval child) as [v ->]. destruct (IH (Z.max best v)) as [m [-> Hm]].
    exists m. split; [reflexivity|lia].
Qed.

Lemma best_of_max_ge_init (value : Grid -> option Z) :
  forall children best m, best_of Z.max value children best = Some m -> best <= m.
Proof.
  induction children as [|child children IH]; intros best m; simpl.
  - intros [= <-]. lia.
  - destruct (value child) as [v|]; [|discriminate].
    intros H. apply IH in H. lia.
Qed.

Lemma weighted_single (v : Z) : (0 + 9 * v) / (0 + 9) = v.
Proof. replace (0 + 9 * v) with (v * 9) by lia. apply Z.div_mul. lia. Qed.

Lemma expectation_single (value : Grid -> option Z) (g : Grid) (a_cell : Position) :
  expectation value g a_cell TILE_VALUE_PROBA 0 0 = value (setCellValue g a_cell 2).
Proof.
  unfold TILE_VALUE_PROBA. cbn [expectation].
  destruct (value (setCellValue g a_cell 2)) as [v|]; [|reflexivity].
  f_equal. apply weighted_single.
Qed.

Lemma best_expected_upper (value : Grid -> option Z) (g : Grid) :
  (forall child, exists m, value child = Some m) ->
  forall cells best, exists m, best_expected value g cells best = Some m /\ m <= best.
Proof.
  intros Hval. induction cells as [|a_cell cells IH]; intros best; cbn [best_expected].
  - exists best. split; [reflexivity|lia].
  - rewrite expectation_single. destruct (Hval (setCellValue g a_cell 2)) as [v ->].
    destruct (IH (Z.min best v)) as [m [-> Hm]]. exists m. split; [reflexivity|lia].
Qed.

Lemma best_expected_le_init (value : Grid -> option Z) (g : Grid) :
  forall cells best m, best_expected value g cells best = Some m -> m <= best.
Proof.
  induction cells as [|a_cell cells IH]; intros best m; cbn [best_expected].
  - intros [= <-]. lia.
  - destruct (expectation value g a_cell TILE_VALUE_PROBA 0 0) as [v|]; [|discriminate].
    intros H. apply IH in H. lia.
Qed.

Lemma maximize_loop_sound (minimize : Grid -> Z -> Z -> Z -> option minimize_result)
      (value : Grid -> option Z) (depth beta alpha0 : Z) (grid : Grid) :
  - MAX_UTILITY <= alpha0 -> alpha0 < beta ->
  (forall child alpha, - MAX_UTILITY <= alpha -> alpha < beta ->
     exists c v m, minimize child (depth + 1) alpha beta = Some (c, v) /\
                   value child = Some m /\ sound alpha beta v m) ->
  forall moves max_move best bm alpha,
    alpha = Z.max alpha0 best -> best < beta ->
    (best <= alpha0 -> bm <= best) -> (alpha0 < best -> bm = best) ->
    exists mv v m,
      maximize_loop minimize grid depth moves max_move best alpha beta = Some (mv, v) /\
      best_of Z.max value (List.map (move grid) moves) bm = Some m /\
      sound alpha0 beta v m.
Proof.
  intros Hlow Hwin Hrec.
  assert (Hval : forall child, exists m, value child = Some m).
  { intros child. destruct (Hrec child alpha0 Hlow Hwin) as (c & v & m & _ & Hm & _). eauto. }
  induction moves as [|a_move moves IH]; intros max_move best bm alpha Halpha Hbest Hle Hgt.
  - simpl. exists max_move, best, bm. repeat split; trivial; unfold sound; lia.
  - cbn [maximize_loop List.map best_of]. rewrite clone_eq.
    destruct (Hrec (move grid a_move) alpha ltac:(lia) ltac:(lia)) as (c & v & m & -> & -> & Hs).
    destruct Hs as (Hs1 & Hs2 & Hs3).
    rewrite !Z.gtb_ltb, Z.geb_leb.
    destruct (Z.leb_spec beta v) as [Hcut|Hcont].
    + destruct (best_of_max_lower value Hval (List.map (move grid) moves) (Z.max bm m))
        as [total [-> Htotal]].
      destruct (Z.ltb_spec best v); [|lia].
      eexists _, v, total. repeat split; trivial; unfold sound; lia.
    + destruct (Z.ltb_spec best v) as [Hb|Hb]; destruct (Z.ltb_spec alpha v) as [Ha|Ha];
        apply IH; lia.
Qed.

Lemma minimize_loop_sound (maximize : Grid -> Z -> Z -> Z -> option maximize_result)
      (value : Grid -> option Z) (depth alpha beta0 : Z) (grid : Grid) :
  beta0 <= MAX_UTILITY -> alpha < beta0 ->
  (forall child beta, alpha < beta -> beta <= MAX_UTILITY ->
     exists c v m, maximize child (depth + 1) alpha beta = Some (c, v) /\
                   value child = Some m /\ sound alpha beta v m) ->
  forall cells min_move best bm beta,
    beta = Z.min beta0 best -> alpha < best ->
    (beta0 <= best -> best <= bm) -> (best < beta0 -> bm = best) ->
    exists mv v m,
      minimize_loop maximize grid depth cells min_move best alpha beta = Some (mv, v) /\
      best_expected value grid cells bm = Some m /\
      sound alpha beta0 v m.
Proof.
  intros Hup Hwin Hrec.
  assert (Hval : forall child, exists m, value child = Some m).
  { intros child. destruct (Hrec child beta0 Hwin Hup) as (c & v & m & _ & Hm & _). eauto. }
  induction cells as [|a_cell cells IH]; intros min_move best bm beta Hbeta Hbest Hge Hlt.
  - simpl. exists min_move, best, bm. repeat split; trivial; unfold sound; lia.
  - cbn [minimize_loop best_expected]. rewrite expectation_single, clone_eq.
    unfold TILE_VALUE_PROBA. cbn [expected_loop].
    destruct (Hrec (setCellValue grid a_cell 2) beta ltac:(lia) ltac:(lia))
      as (c & v & m & -> & -> & Hs).
    destruct Hs as (Hs1 & Hs2 & Hs3).
    rewrite weighted_single.
    destruct (Z.leb_spec v alpha) as [Hcut|Hcont].
    + destruct (best_expected_upper value grid Hval cells (Z.min bm m)) as [total [-> Htotal]].
      destruct (Z.ltb_spec v best); [|lia].
      eexists _, v, total. repeat split; trivial; unfold sound; lia.
    + destruct (Z.ltb_spec v best) as [Hb|Hb]; destruct (Z.ltb_spec v beta) as [Ha|Ha];
        apply IH; lia.
Qed.

Lemma search_sound (fuel : nat) :
  forall depth,
    depth <= MAX_DEPTH -> (Z.to_nat (MAX_DEPTH - depth) < fuel)%nat ->
    (forall g alpha beta,
        - MAX_UTILITY <= alpha -> alpha < beta -> beta <= MAX_UTILITY ->
        exists c v m, __maximize fuel g depth alpha beta = Some (c, v) /\
                      minimax_max fuel g depth = Some m /\ sound alpha beta v m) /\
    (forall g alpha beta,
        - MAX_UTILITY <= alpha -> alpha < beta -> beta <= MAX_UTILITY ->
        exists c v m, __minimize fuel g depth alpha beta = Some (c, v) /\
                      minimax_min fuel g depth = Some m /\ sound alpha beta v m).
Proof.
  induction fuel as [|fuel IH]; intros depth Hdepth Hfuel; [lia|].
  split; intros g alpha beta Hlow Hwin Hup;
    cbn [__maximize __minimize minimax_max minimax_min];
    destruct (cutoff g depth) eqn:Hcut;
    try (exists None, (__eval g), (__eval g); repeat split; trivial; unfold sound; lia);
    apply cutoff_false in Hcut; destruct Hcut as [Hd _];
    destruct (IH (depth + 1) ltac:(lia) ltac:(lia)) as [IHmax IHmin].
  - apply (maximize_loop_sound (__minimize fuel)
             (fun child => minimax_min fuel child (depth + 1)) depth beta alpha g Hlow Hwin);
      try lia.
    intros child a Ha1 Ha2. apply IHmin; lia.
  - apply (minimize_loop_sound (__maximize fuel)
             (fun child => minimax_max fuel child (depth + 1)) depth alpha beta g Hup Hwin);
      try lia.
    intros child b Hb1 Hb2. apply IHmax; lia.
Qed.

Lemma maximize_loop_lower (minimize : Grid -> Z -> Z -> Z -> option minimize_result)
      (grid : Grid) (depth beta : Z) :
  forall moves max_move best alpha mv v,
    maximize_loop minimize grid depth moves max_move best alpha beta = Some (mv, v) ->
    best <= v.
Proof.
  induction moves as [|a_move moves IH]; intros max_move best alpha mv v; simpl.
  - intros [= _ <-]. lia.
  - destruct (minimize _ _ _ _) as [[c utility]|]; [|discriminate].
    rewrite !Z.gtb_ltb. destruct (utility >=? beta).
    + intros [= _ <-]. destruct (Z.ltb_spec best utility); lia.
    + intros H. apply IH in H. destruct (Z.ltb_spec best utility); lia.
Qed.

(** ** Minimax on a plain tree

    On a plain tree the search without its [break] statements computes
    minimax: no node keeps its initial value, and no utility is cut at
    one. *)

Lemma best_of_agree (spec code : Grid -> option Z) (children : list Grid) :
  (forall child, In child children ->
                 exists m, spec child = Some m /\ code child = Some m /\
                           - MAX_UTILITY <= m <= MAX_UTILITY) ->
  forall best, - MAX_UTILITY <= best <= MAX_UTILITY ->
  exists m, best_of Z.max spec children best = Some m /\
            best_of Z.max code children best = Some m /\
            - MAX_UTILITY <= m <= MAX_UTILITY.
Proof.
  induction children as [|child children IH]; intros Hchildren best Hbest; cbn [best_of].
  - exists best. auto.
  - destruct (Hchildren child (or_introl eq_refl)) as (m & -> & -> & Hm).
    apply IH; [|lia]. intros c Hc. apply Hchildren. right. exact Hc.
Qed.

Lemma best_expected_agree (spec code : Grid -> option Z) (g : Grid) (cells : list Position) :
  (forall a_cell, In a_cell cells ->
                  exists m, spec (setCellValue g a_cell 2) = Some m /\
                            code (setCellValue g a_cell 2) = Some m /\
                            - MAX_UTILITY <= m <= MAX_UTILITY) ->
  forall best, - MAX_UTILITY <= best <= MAX_UTILITY ->
  exists m, best_expected spec g cells best = Some m /\
            best_expected code g cells best = Some m /\
            - MAX_UTILITY <= m <= MAX_UTILITY.
Proof.
  induction cells as [|a_cell cells IH]; intros Hcells best Hbest; cbn [best_expected].
  - exists best. auto.
  - rewrite !expectation_single.
    destruct (Hcells a_cell (or_introl eq_refl)) as (m & -> & -> & Hm).
    apply IH; [|lia]. intros c Hc. apply Hcells. right. exact Hc.
Qed.

Lemma utility_in_range_bounds (g : Grid) :
  utility_in_range g = true -> - MAX_UTILITY <= __eval g <= MAX_UTILITY.
Proof.
  unfold utility_in_range. intros H. apply andb_prop in H. destruct H as [Hlow Hup].
  apply Z.leb_le in Hlow. apply Z.leb_le in Hup. lia.
Qed.

Lemma plain_agrees (fuel : nat) :
  forall depth g,
    (plain_max fuel g depth = true ->
     exists m, spec_minimax_max fuel g depth = Some m /\
               minimax_max fuel g depth = Some m /\
               - MAX_UTILITY <= m <= MAX_UTILITY) /\
    (plain_min fuel g depth = true ->
     exists m, spec_minimax_min fuel g depth = Some m /\
               minimax_min fuel g depth = Some m /\
               - MAX_UTILITY <= m <= MAX_UTILITY).
Proof.
  induction fuel as [|fuel IH]; intros depth g; [split; discriminate|].
  split; cbn [plain_max plain_min spec_minimax_max spec_minimax_min minimax_max minimax_min];
    destruct (cutoff g depth);
    try (intros Hrange; exists (__eval g);
         split; [reflexivity|]; split; [reflexivity|]; apply utility_in_range_bounds, Hrange);
    intros Hplain; apply andb_prop in Hplain; destruct Hplain as [Hnonempty Hall];
    rewrite forallb_forall in Hall.
  - destruct (getAvailableMoves g) as [|a_move moves]; [discriminate|].
    cbn [List.map best_child best_of].
    destruct (IH (depth + 1) (move g a_move)) as [_ IHmin].
    destruct (IHmin (Hall a_move (or_introl eq_refl))) as (m0 & -> & -> & Hm0).
    replace (Z.max (- MAX_UTILITY) m0) with m0 by lia.
    apply best_of_agree; [|exact Hm0].
    intros child Hchild. apply in_map_iff in Hchild. destruct Hchild as (d & <- & Hd).
    apply (IH (depth + 1) (move g d)). apply Hall. right. exact Hd.
  - destruct (getAvailableCells g) as [|a_cell cells]; [discriminate|].
    cbn [least_expected best_expected]. rewrite !expectation_single.
    assert (Hcell : forall c, In c (a_cell :: cells) ->
                              plain_max fuel (setCellValue g c 2) (depth + 1) = true).
    { intros c Hc. specialize (Hall c Hc). unfold TILE_VALUE_PROBA in Hall.
      cbn [forallb fst] in Hall. rewrite andb_true_r in Hall. exact Hall. }
    destruct (IH (depth + 1) (setCellValue g a_cell 2)) as [IHmax _].
    destruct (IHmax (Hcell a_cell (or_introl eq_refl))) as (m0 & -> & -> & Hm0).
    replace (Z.min MAX_UTILITY m0) with m0 by lia.
    apply best_expected_agree; [|exact Hm0].
    intros c Hc. apply (IH (depth + 1) (setCellValue g c 2)). apply Hcell. right. exact Hc.
Qed.

(** ** The search on objects computes the search on values

    A call on the object [r] returns what the call on its board returns,
    and the store it leaves is the store it was given followed by the
    boards it allocated: no board that existed before the call is
    changed. *)

Lemma store_old (s t : store) (r : ref) (g : Grid) :
  nth_error s r = Some g -> nth_error (s ++ t) r = Some g.
Proof.
  intros H. rewrite nth_error_app1; [exact H|]. apply nth_error_Some. congruence.
Qed.

Lemma store_new (s t : store) (g : Grid) : nth_error (s ++ g :: t) (length s) = Some g.
Proof. rewrite nth_error_app2 by lia. rewrite Nat.sub_diag. reflexivity. Qed.

Lemma store_set_new (s t : store) (g g' : Grid) :
  list_set (s ++ g :: t) (length s) g' = s ++ g' :: t.
Proof. induction s as [|x s IH]; simpl; [reflexivity|]. rewrite IH. reflexivity. Qed.

Section MaximizeLoop.
Variable obj : ref -> Z -> Z -> Z -> comp (minimize_result * call).
Variable pure : Grid -> Z -> Z -> Z -> option minimize_result.
Hypothesis obj_refines_pure : refines obj pure.

Lemma obj_maximize_loop_refines :
  forall moves s r g depth max_move max_utility alpha beta calls res,
    nth_error s r = Some g ->
    maximize_loop pure g depth moves max_move max_utility alpha beta = Some res ->
    exists calls' s',
      obj_maximize_loop obj r depth moves max_move max_utility alpha beta calls s
      = Some ((res, calls'), s ++ s').
Proof.
  induction moves as [|a_move moves IH];
    intros s r g depth max_move max_utility alpha beta calls res Hr; simpl.
  - intros [= <-]. exists calls, []. rewrite app_nil_r. reflexivity.
  - destruct (pure (move (clone g) a_move) (depth + 1) alpha beta) as [[c utility]|] eqn:Hpure;
      [|discriminate].
    unfold bind at 1. unfold new_clone. rewrite Hr.
    unfold bind at 1. unfold mutate. rewrite (store_new s []), (store_set_new s []).
    unfold bind at 1.
    destruct (obj_refines_pure (s ++ [move (clone g) a_move]) (length s) _ _ _ _ _
                (store_new s [] _) Hpure) as (probe & s1 & ->).
    destruct (utility >=? beta).
    + intros [= <-]. unfold ret. rewrite <- app_assoc. eauto.
    + intros Hloop.
      eapply IH with (s := (s ++ [move (clone g) a_move]) ++ s1) (calls := calls ++ [probe])
        in Hloop; [|rewrite <- app_assoc; apply store_old, Hr].
      destruct Hloop as (calls' & s2 & ->). rewrite <- !app_assoc. eauto.
Qed.
End MaximizeLoop.

Section MinimizeLoop.
Variable obj : ref -> Z -> Z -> Z -> comp (maximize_result * call).
Variable pure : Grid -> Z -> Z -> Z -> option maximize_result.
Hypothesis obj_refines_pure : refines obj pure.

(** The copy sits at the end of the part of the store that the caller
    knows; the calls made on it may append to the store, and only the
    copy itself is overwritten. *)
Lemma obj_expected_loop_refines :
  forall items s t grid_copy a_cell depth alpha beta utility freq calls res,
    expected_loop pure grid_copy a_cell depth alpha beta items utility freq = Some res ->
    exists calls' grid_copy' t',
      obj_expected_loop obj (length s) a_cell depth alpha beta items utility freq calls
                        (s ++ grid_copy :: t)
      = Some ((res, calls'), s ++ grid_copy' :: t').
Proof.
  induction items as [|[value proba] items IH];
    intros s t grid_copy a_cell depth alpha beta utility freq calls res; simpl.
  - intros [= <-]. unfold ret. eauto.
  - destruct (pure (setCellValue grid_copy a_cell value) (depth + 1) alpha beta)
      as [[c cond_utility]|] eqn:Hpure; [|discriminate].
    unfold bind at 1. unfold mutate. rewrite store_new, store_set_new.
    unfold bind at 1.
    destruct (obj_refines_pure (s ++ setCellValue grid_copy a_cell value :: t) (length s)
                _ _ _ _ _ (store_new s t _) Hpure) as (probe & s1 & ->).
    intros Hloop. rewrite <- app_assoc. simpl. apply IH. exact Hloop.
Qed.

Lemma obj_minimize_loop_refines :
  forall cells s r g depth min_move min_utility alpha beta calls res,
    nth_error s r = Some g ->
    minimize_loop pure g depth cells min_move min_utility alpha beta = Some res ->
    exists calls' s',
      obj_minimize_loop obj r depth cells min_move min_utility alpha beta calls s
      = Some ((res, calls'), s ++ s').
Proof.
  induction cells as [|a_cell cells IH];
    intros s r g depth min_move min_utility alpha beta calls res Hr;
    cbn [minimize_loop obj_minimize_loop].
  - intros [= <-]. exists calls, []. rewrite app_nil_r. reflexivity.
  - destruct (expected_loop pure (clone g) a_cell depth alpha beta TILE_VALUE_PROBA 0 0)
      as [[utility freq]|] eqn:Hpure; [|discriminate].
    unfold bind at 1. unfold new_clone. rewrite Hr.
    unfold bind at 1.
    destruct (obj_expected_loop_refines _ s [] _ _ _ _ _ _ _ calls _ Hpure)
      as (calls1 & grid_copy' & t' & ->).
    destruct (utility / freq <=? alpha).
    + intros [= <-]. unfold ret. eauto.
    + intros Hloop.
      eapply IH with (s := s ++ grid_copy' :: t') (calls := calls1) in Hloop;
        [|apply store_old, Hr].
      destruct Hloop as (calls' & s2 & ->). rewrite <- app_assoc. eauto.
Qed.
End MinimizeLoop.

(** One [query] of an object whose board is known. *)
Ltac run_query Hr := unfold bind at 1; unfold query at 1; rewrite Hr.

Lemma obj_search_refines (fuel : nat) :
  refines (obj_maximize fuel) (__maximize fuel) /\ refines (obj_minimize fuel) (__minimize fuel).
Proof.
  induction fuel as [|fuel [IHmax IHmin]]; [split; intros s r g depth alpha beta res _; discriminate|].
  split; intros s r g depth alpha beta res Hr; cbn [__maximize __minimize obj_maximize obj_minimize];
    run_query Hr; run_query Hr; destruct (cutoff g depth).
  - intros [= <-]. run_query Hr. exists (Static Maximizing depth g), [].
    rewrite app_nil_r. reflexivity.
  - intros Hloop. run_query Hr. unfold bind at 1.
    destruct (obj_maximize_loop_refines _ _ IHmin _ s r g depth _ _ _ _ [] res Hr Hloop)
      as (calls & s' & ->).
    unfold ret. eauto.
  - intros [= <-]. run_query Hr. exists (Static Minimizing depth g), [].
    rewrite app_nil_r. reflexivity.
  - intros Hloop. run_query Hr. unfold bind at 1.
    destruct (obj_minimize_loop_refines _ _ IHmax _ s r g depth _ _ _ _ [] res Hr Hloop)
      as (calls & s' & ->).
    unfold ret. eauto.
Qed.

(** ** The probe: every call is one level below its caller *)

Lemma well_nested_searched (role : Role) (depth : Z) (board : Grid) (subcalls : list call) :
  well_nested (Searched role depth board subcalls)
  = (depth <=? MAX_DEPTH) && negb (cutoff board depth) && forallb (subcall_ok role depth) subcalls.
Proof.
  reflexivity.
Qed.

Lemma probe_ok_subcall (role : Role) (depth : Z) (s : store) (r : ref) (probe : call) :
  probe_ok (other role) (depth + 1) s r probe -> subcall_ok role depth probe = true.
Proof.
  intros (Hrole & Hdepth & _ & Hnested & _). unfold subcall_ok.
  rewrite Hrole, Hdepth, Hnested, Z.eqb_refl. destruct role; reflexivity.
Qed.

Lemma obj_maximize_loop_probe obj (depth : Z) :
  (forall r alpha beta s res c s1,
      obj r (depth + 1) alpha beta s = Some ((res, c), s1) ->
      subcall_ok Maximizing depth c = true) ->
  forall moves r max_move max_utility alpha beta calls s res calls' s1,
    forallb (subcall_ok Maximizing depth) calls = true ->
    obj_maximize_loop obj r depth moves max_move max_utility alpha beta calls s
    = Some ((res, calls'), s1) ->
    forallb (subcall_ok Maximizing depth) calls' = true.
Proof.
  intros Hrec. induction moves as [|a_move moves IH];
    intros r max_move max_utility alpha beta calls s res calls' s1 Hcalls; simpl.
  - intros [= _ <- _]. exact Hcalls.
  - unfold bind at 1. destruct (new_clone r s) as [[grid_copy s2]|]; [|discriminate].
    unfold bind at 1. destruct (mutate grid_copy _ s2) as [[[] s3]|]; [|discriminate].
    unfold bind at 1.
    destruct (obj grid_copy (depth + 1) alpha beta s3) as [[[[c utility] probe] s4]|] eqn:Hcall;
      [|discriminate].
    apply Hrec in Hcall.
    assert (Hcalls' : forallb (subcall_ok Maximizing depth) (calls ++ [probe]) = true).
    { rewrite forallb_app, Hcalls. simpl. rewrite Hcall. reflexivity. }
    destruct (utility >=? beta).
    + intros [= _ <- _]. exact Hcalls'.
    + apply IH. exact Hcalls'.
Qed.

Lemma obj_expected_loop_probe obj (depth : Z) :
  (forall r alpha beta s res c s1,
      obj r (depth + 1) alpha beta s = Some ((res, c), s1) ->
      subcall_ok Minimizing depth c = true) ->
  forall items r a_cell alpha beta utility freq calls s res calls' s1,
    forallb (subcall_ok Minimizing depth) calls = true ->
    obj_expected_loop obj r a_cell depth alpha beta items utility freq calls s
    = Some ((res, calls'), s1) ->
    forallb (subcall_ok Minimizing depth) calls' = true.
Proof.
  intros Hrec. induction items as [|[value proba] items IH];
    intros r a_cell alpha beta utility freq calls s res calls' s1 Hcalls; simpl.
  - intros [= _ <- _]. exact Hcalls.
  - unfold bind at 1. destruct (mutate r _ s) as [[[] s2]|]; [|discriminate].
    unfold bind at 1.
    destruct (obj r (depth + 1) alpha beta s2) as [[[[c cond_utility] probe] s3]|] eqn:Hcall;
      [|discriminate].
    apply Hrec in Hcall. apply IH.
    rewrite forallb_app, Hcalls. simpl. rewrite Hcall. reflexivity.
Qed.

Lemma obj_minimize_loop_probe obj (depth : Z) :
  (forall r alpha beta s res c s1,
      obj r (depth + 1) alpha beta s = Some ((res, c), s1) ->
      subcall_ok Minimizing depth c = true) ->
  forall cells r min_move min_utility alpha beta calls s res calls' s1,
    forallb (subcall_ok Minimizing depth) calls = true ->
    obj_minimize_loop obj r depth cells min_move min_utility alpha beta calls s
    = Some ((res, calls'), s1) ->
    forallb (subcall_ok Minimizing depth) calls' = true.
Proof.
  intros Hrec. induction cells as [|a_cell cells IH];
    intros r min_move min_utility alpha beta calls s res calls' s1 Hcalls;
    cbn [obj_minimize_loop].
  - intros [= _ <- _]. exact Hcalls.
  - unfold bind at 1. destruct (new_clone r s) as [[grid_copy s2]|]; [|discriminate].
    unfold bind at 1.
    destruct (obj_expected_loop obj grid_copy a_cell depth alpha beta TILE_VALUE_PROBA 0 0 calls s2)
      as [[[[utility freq] calls1] s3]|] eqn:Hexp; [|discriminate].
    apply (obj_expected_loop_probe obj depth Hrec) in Hexp; [|exact Hcalls].
    destruct (utility / freq <=? alpha).
    + intros [= _ <- _]. exact Hexp.
    + apply IH. exact Hexp.
Qed.

Lemma obj_search_probe (fuel : nat) :
  forall depth,
    depth <= MAX_DEPTH ->
    (forall r alpha beta s res probe s1,
        obj_maximize fuel r depth alpha beta s = Some ((res, probe), s1) ->
        probe_ok Maximizing depth s r probe) /\
    (forall r alpha beta s res probe s1,
        obj_minimize fuel r depth alpha beta s = Some ((res, probe), s1) ->
        probe_ok Minimizing depth s r probe).
Proof.
  induction fuel as [|fuel IH]; intros depth Hdepth; [split; intros; discriminate|].
  split; intros r alpha beta s res probe s1; cbn [obj_maximize obj_minimize];
    unfold bind at 1; unfold query at 1;
    destruct (nth_error s r) as [g|] eqn:Hr; try discriminate;
    unfold bind at 1; unfold query at 1; rewrite Hr;
    destruct (cutoff g depth) eqn:Hcut.
  - unfold bind, query, ret. rewrite Hr. intros [= _ <- _].
    repeat split; simpl; trivial; [|congruence].
    rewrite Hcut. apply andb_true_iff. split; [lia|reflexivity].
  - unfold bind at 1. unfold query at 1. rewrite Hr. unfold bind at 1.
    destruct (obj_maximize_loop _ _ _ _ _ _ _ _ _ s) as [[[result calls] s2]|] eqn:Hloop;
      [|discriminate].
    unfold ret. intros [= _ <- _].
    repeat split; simpl call_board; trivial; [|simpl; congruence].
    rewrite well_nested_searched, Hcut.
    apply cutoff_false in Hcut. destruct Hcut as [Hd _].
    destruct (IH (depth + 1) ltac:(lia)) as [_ IHmin].
    apply (obj_maximize_loop_probe (obj_minimize fuel) depth) in Hloop; [|..|reflexivity].
    + rewrite Hloop. apply andb_true_iff. split; [|reflexivity].
      apply andb_true_iff. split; [lia|reflexivity].
    + intros r0 a b s0 res0 c s3 Hcall. apply IHmin in Hcall.
      apply (probe_ok_subcall Maximizing depth s0 r0 c). exact Hcall.
  - unfold bind, query, ret. rewrite Hr. intros [= _ <- _].
    repeat split; simpl; trivial; [|congruence].
    rewrite Hcut. apply andb_true_iff. split; [lia|reflexivity].
  - unfold bind at 1. unfold query at 1. rewrite Hr. unfold bind at 1.
    destruct (obj_minimize_loop _ _ _ _ _ _ _ _ _ s) as [[[result calls] s2]|] eqn:Hloop;
      [|discriminate].
    unfold ret. intros [= _ <- _].
    repeat split; simpl call_board; trivial; [|simpl; congruence].
    rewrite well_nested_searched, Hcut.
    apply cutoff_false in Hcut. destruct Hcut as [Hd _].
    destruct (IH (depth + 1) ltac:(lia)) as [IHmax _].
    apply (obj_minimize_loop_probe (obj_maximize fuel) depth) in Hloop; [|..|reflexivity].
    + rewrite Hloop. apply andb_true_iff. split; [|reflexivity].
      apply andb_true_iff. split; [lia|reflexivity].
    + intros r0 a b s0 res0 c s3 Hcall. apply IHmax in Hcall.
      apply (probe_ok_subcall Minimizing depth s0 r0 c). exact Hcall.
Qed.

(** ** The move the search reports *)

Lemma maximize_loop_move (minimize : Grid -> Z -> Z -> Z -> option minimize_result)
      (grid : Grid) (depth beta : Z) :
  forall moves max_move max_utility alpha d v,
    maximize_loop minimize grid depth moves max_move max_utility alpha beta = Some (Some d, v) ->
    In d moves \/ max_move = Some d.
Proof.
  induction moves as [|a_move moves IH]; intros max_move max_utility alpha d v; simpl.
  - intros [= -> _]. right. reflexivity.
  - destruct (minimize _ _ _ _) as [[c utility]|]; [|discriminate].
    destruct (utility >=? beta).
    + destruct (utility >? max_utility); intros [= H _]; subst; auto.
    + intros H. apply IH in H. destruct H as [H|H]; [auto|].
      destruct (utility >? max_utility); [injection H as <-|]; auto.
Qed.

Lemma vecIndex_NoDup : NoDup vecIndex.
Proof. unfold vecIndex. repeat constructor; simpl; intuition discriminate. Qed.

Lemma getAvailableMoves_NoDup (g : Grid) : NoDup (getAvailableMoves g).
Proof. unfold getAvailableMoves. apply NoDup_filter, vecIndex_NoDup. Qed.

Lemma random_move_empty (entropy : Z) : random_move entropy [] = Raises ValueError.
Proof. reflexivity. Qed.

Lemma random_move_nth (entropy : Z) (moves : list Direction) (i : nat) (d : Direction) :
  nth_error moves i = Some d ->
  entropy mod Z.of_nat (length moves) = Z.of_nat i ->
  random_move entropy moves = Returns d.
Proof.
  intros Hnth Hmod. unfold random_move, randint.
  assert (Hlen : (i < length moves)%nat) by (apply nth_error_Some; congruence).
  destruct (Z.ltb_spec (Z.of_nat (length moves) - 1) 0) as [H|_]; [lia|].
  replace (Z.of_nat (length moves) - 1 - 0 + 1) with (Z.of_nat (length moves)) by lia.
  rewrite Hmod. unfold list_index. simpl. rewrite Nat2Z.id, Hnth. reflexivity.
Qed.

Lemma random_move_legal (entropy : Z) (moves : list Direction) :
  moves <> [] -> exists d, random_move entropy moves = Returns d /\ In d moves.
Proof.
  intros Hne.
  assert (Hlen : 0 < Z.of_nat (length moves)) by (destruct moves; [congruence|simpl; lia]).
  pose proof (Z.mod_pos_bound entropy _ Hlen) as Hmod.
  destruct (nth_error moves (Z.to_nat (entropy mod Z.of_nat (length moves)))) as [d|] eqn:Hnth.
  - exists d. split; [|eapply nth_error_In; exact Hnth].
    eapply random_move_nth; [exact Hnth|lia].
  - apply nth_error_None in Hnth. lia.
Qed.

Lemma getMove_unfold (entropy : Z) (s s1 : store) (r : ref) (g : Grid)
      (a_move : option Direction) (v : Z) (probe : call) :
  obj_maximize (search_fuel 0) r 0 (- MAX_UTILITY) MAX_UTILITY s = Some (((a_move, v), probe), s1) ->
  nth_error s1 r = Some g ->
  getMove entropy r s
  = Some ((match a_move with
           | Some d => Returns d
           | None => random_move entropy (getAvailableMoves g)
           end, probe), s1).
Proof.
  intros Hsearch Hr. unfold getMove. unfold bind at 1. rewrite Hsearch.
  destruct a_move as [d|]; [reflexivity|].
  unfold bind, query. rewrite Hr. unfold random_move.
  destruct (randint entropy 0 _); reflexivity.
Qed.

Lemma getMove_runs (entropy : Z) (s : store) (r : ref) (g : Grid) :
  nth_error s r = Some g ->
  exists a_move v probe s',
    __maximize (search_fuel 0) g 0 (- MAX_UTILITY) MAX_UTILITY = Some (a_move, v) /\
    probe_ok Maximizing 0 s r probe /\
    getMove entropy r s
    = Some ((match a_move with
             | Some d => Returns d
             | None => random_move entropy (getAvailableMoves g)
             end, probe), s ++ s').
Proof.
  intros Hr.
  destruct (search_fuel_enough 0 ltac:(unfold MAX_DEPTH; lia)) as [Htotal _].
  destruct (Htotal g (- MAX_UTILITY) MAX_UTILITY) as [[a_move v] Hpure].
  destruct (obj_search_refines (search_fuel 0)) as [Hmax _].
  destruct (Hmax s r g 0 _ _ _ Hr Hpure) as (probe & s' & Hobj).
  exists a_move, v, probe, s'. split; [exact Hpure|]. split.
  - destruct (obj_search_probe (search_fuel 0) 0 ltac:(unfold MAX_DEPTH; lia)) as [Hprobe _].
    eapply Hprobe. exact Hobj.
  - apply getMove_unfold with (v := v); [exact Hobj|]. apply store_old, Hr.
Qed.

Lemma obj_maximize_returns (s : store) (r : ref) (g : Grid) (depth alpha beta : Z) :
  nth_error s r = Some g -> depth <= MAX_DEPTH ->
  exists res probe s',
    obj_maximize (search_fuel depth) r depth alpha beta s = Some ((res, probe), s ++ s') /\
    __maximize (search_fuel depth) g depth alpha beta = Some res /\
    probe_ok Maximizing depth s r probe.
Proof.
  intros Hr Hdepth.
  destruct (search_fuel_enough depth Hdepth) as [Htotal _].
  destruct (Htotal g alpha beta) as [res Hpure].
  destruct (obj_search_refines (search_fuel depth)) as [Hmax _].
  destruct (Hmax s r g depth _ _ _ Hr Hpure) as (probe & s' & Hobj).
  exists res, probe, s'. repeat split; trivial;
    destruct (obj_search_probe (search_fuel depth) depth Hdepth) as [Hprobe _];
    apply Hprobe in Hobj; apply Hobj.
Qed.

Lemma obj_minimize_returns (s : store) (r : ref) (g : Grid) (depth alpha beta : Z) :
  nth_error s r = Some g -> depth <= MAX_DEPTH ->
  exists res probe s',
    obj_minimize (search_fuel depth) r depth alpha beta s = Some ((res, probe), s ++ s') /\
    __minimize (search_fuel depth) g depth alpha beta = Some res /\
    probe_ok Minimizing depth s r probe.
Proof.
  intros Hr Hdepth.
  destruct (search_fuel_enough depth Hdepth) as [_ Htotal].
  destruct (Htotal g alpha beta) as [res Hpure].
  destruct (obj_search_refines (search_fuel depth)) as [_ Hmin].
  destruct (Hmin s r g depth _ _ _ Hr Hpure) as (probe & s' & Hobj).
  exists res, probe, s'. repeat split; trivial;
    destruct (obj_search_probe (search_fuel depth) depth Hdepth) as [_ Hprobe];
    apply Hprobe in Hobj; apply Hobj.
Qed.

(** * Main results *)

(** C1, as the code has it.  A call of [__maximize] below the depth limit,
    on a board that has not reached the target and has no legal shift,
    returns no move and the utility the loop starts from, [-MAX_UTILITY];
    a call of [__minimize] on such a board without an empty cell returns
    no cell and [MAX_UTILITY].  The board is not evaluated. *)
Theorem no_choice_returns_initial_utility (fuel : nat) (g : Grid) (depth alpha beta : Z) :
  depth < MAX_DEPTH -> getMaxTile g <> TARGET_TILE_VALUE ->
  (getAvailableMoves g = [] ->
   __maximize (S fuel) g depth alpha beta = Some (None, - MAX_UTILITY)) /\
  (getAvailableCells g = [] ->
   __minimize (S fuel) g depth alpha beta = Some (None, MAX_UTILITY)).
Proof.
  intros Hdepth Hmax.
  assert (Hcut : cutoff g depth = false).
  { unfold cutoff, __is_terminal_state. apply orb_false_intro; apply Z.eqb_neq; [lia|exact Hmax]. }
  split; intros Hnone; cbn [__maximize __minimize]; rewrite Hcut, Hnone; reflexivity.
Qed.

Lemma no_choice_returns_initial_utility_witness :
  0 < MAX_DEPTH /\ getMaxTile dead_board <> TARGET_TILE_VALUE /\
  getAvailableMoves dead_board = [] /\ getAvailableCells dead_board = [] /\
  __maximize 5 dead_board 0 (- MAX_UTILITY) MAX_UTILITY = Some (None, - MAX_UTILITY) /\
  __minimize 5 dead_board 0 (- MAX_UTILITY) MAX_UTILITY = Some (None, MAX_UTILITY).
Proof.
  assert (Hdepth : 0 < MAX_DEPTH) by reflexivity.
  assert (Hmax : getMaxTile dead_board <> TARGET_TILE_VALUE) by (vm_compute; discriminate).
  destruct (no_choice_returns_initial_utility 4 dead_board 0 (- MAX_UTILITY) MAX_UTILITY
              Hdepth Hmax) as [Hmaximize Hminimize].
  split; [exact Hdepth|]. split; [exact Hmax|].
  split; [reflexivity|]. split; [reflexivity|].
  split; [apply Hmaximize|apply Hminimize]; reflexivity.
Defined.

(** C1 as stated fails: [dead_board] is below the depth limit and the
    target, has neither a legal shift nor an empty cell, and neither
    procedure returns its evaluation. *)
Lemma no_choice_is_not_evaluated :
  0 < MAX_DEPTH /\ getMaxTile dead_board <> TARGET_TILE_VALUE /\
  getAvailableMoves dead_board = [] /\ getAvailableCells dead_board = [] /\
  __maximize (search_fuel 0) dead_board 0 (- MAX_UTILITY) MAX_UTILITY
    <> Some (None, __eval dead_board) /\
  __minimize (search_fuel 0) dead_board 0 (- MAX_UTILITY) MAX_UTILITY
    <> Some (None, __eval dead_board).
Proof.
  split; [reflexivity|]. split; [vm_compute; discriminate|].
  split; [reflexivity|]. split; [reflexivity|].
  split; vm_compute; discriminate.
Qed.

(** C2, as the code has it.  On every board whose game tree down to the
    cutoff is plain (every node above the cutoff has a successor and the
    utility of every board at the cutoff lies between [-MAX_UTILITY] and
    [MAX_UTILITY]), the utility that [__maximize] returns at the root,
    with the window [(-MAX_UTILITY, MAX_UTILITY)], is the utility of
    depth-bounded minimax without pruning. *)
Theorem pruning_preserves_root_utility (g : Grid) :
  plain_max (search_fuel 0) g 0 = true ->
  exists c v, __maximize (search_fuel 0) g 0 (- MAX_UTILITY) MAX_UTILITY = Some (c, v) /\
              spec_minimax_max (search_fuel 0) g 0 = Some v.
Proof.
  intros Hplain.
  destruct (plain_agrees (search_fuel 0) 0 g) as [Hagree _].
  destruct (Hagree Hplain) as (m & Hspec & Hcode & Hm).
  destruct (search_sound (search_fuel 0) 0 ltac:(unfold MAX_DEPTH; lia)
              ltac:(unfold search_fuel; lia)) as [Hmax _].
  destruct (Hmax g (- MAX_UTILITY) MAX_UTILITY ltac:(lia) ltac:(unfold MAX_UTILITY; lia)
              ltac:(lia)) as (c & v & m' & Hv & Hm' & Hs1 & Hs2 & Hs3).
  assert (m' = m) by congruence. subst m'.
  exists c, v. split; [exact Hv|]. rewrite Hspec. f_equal.
  change (search_fuel 0) with 5%nat in Hv, Hcode. cbn [__maximize minimax_max] in Hv, Hcode.
  destruct (cutoff g 0); [congruence|].
  apply maximize_loop_lower in Hv.
  lia.
Qed.

Lemma pruning_preserves_root_utility_witness :
  plain_max (search_fuel 0) test_grid 0 = true /\
  __maximize (search_fuel 0) test_grid 0 (- MAX_UTILITY) MAX_UTILITY = Some (Some DOWN, 10630) /\
  spec_minimax_max (search_fuel 0) test_grid 0 = Some 10630 /\
  exists c v, __maximize (search_fuel 0) test_grid 0 (- MAX_UTILITY) MAX_UTILITY = Some (c, v) /\
              spec_minimax_max (search_fuel 0) test_grid 0 = Some v.
Proof.
  assert (Hplain : plain_max (search_fuel 0) test_grid 0 = true) by (vm_compute; reflexivity).
  split; [exact Hplain|]. split; [vm_compute; reflexivity|]. split; [vm_compute; reflexivity|].
  apply (pruning_preserves_root_utility test_grid Hplain).
Defined.

(** C2 as stated fails in two ways.  On [cornered_board] every line of
    play reaches a board without a legal shift above the cutoff: the
    search returns [-MAX_UTILITY] where minimax, which evaluates such a
    board, gives 80.  On [huge_tile_board] every node has a successor but
    the utilities at the cutoff exceed [MAX_UTILITY]: the search returns
    [MAX_UTILITY], minimax the utility itself. *)
Lemma pruned_root_differs_from_minimax :
  (__maximize (search_fuel 0) cornered_board 0 (- MAX_UTILITY) MAX_UTILITY
   = Some (None, - MAX_UTILITY) /\
   spec_minimax_max (search_fuel 0) cornered_board 0 = Some 80) /\
  (__maximize (search_fuel 0) huge_tile_board 0 (- MAX_UTILITY) MAX_UTILITY
   = Some (Some DOWN, MAX_UTILITY) /\
   spec_minimax_max (search_fuel 0) huge_tile_board 0 = Some 46116860184273878300).
Proof.
  split; split; vm_compute; reflexivity.
Qed.

(** C3.  On a board with at least one legal move and its largest tile
    below the target, [getMove] returns a direction that is among
    [getAvailableMoves()] of that board. *)
Theorem getMove_returns_legal_move (entropy : Z) (s : store) (r : ref) (g : Grid) :
  nth_error s r = Some g ->
  getAvailableMoves g <> [] -> getMaxTile g < TARGET_TILE_VALUE ->
  exists d probe s',
    getMove entropy r s = Some ((Returns d, probe), s') /\ In d (getAvailableMoves g).
Proof.
  intros Hr Hmoves Hmax.
  destruct (getMove_runs entropy s r g Hr) as (a_move & v & probe & s' & Hpure & _ & Hget).
  destruct a_move as [d|].
  - exists d, probe, (s ++ s'). split; [exact Hget|].
    change (search_fuel 0) with 5%nat in Hpure. cbn [__maximize] in Hpure.
    destruct (cutoff g 0) eqn:Hcut; [discriminate|].
    apply maximize_loop_move in Hpure. destruct Hpure as [Hin|Hinit]; [exact Hin|discriminate].
  - destruct (random_move_legal entropy (getAvailableMoves g) Hmoves) as [d [Hd Hin]].
    exists d, probe, (s ++ s'). rewrite Hd in Hget. split; [exact Hget|exact Hin].
Qed.

Lemma getMove_returns_legal_move_witness :
  nth_error [test_grid] 0 = Some test_grid /\
  getAvailableMoves test_grid <> [] /\ getMaxTile test_grid < TARGET_TILE_VALUE /\
  exists d probe s',
    getMove 7 0%nat [test_grid] = Some ((Returns d, probe), s') /\
    In d (getAvailableMoves test_grid).
Proof.
  split; [reflexivity|]. split; [vm_compute; discriminate|]. split; [reflexivity|].
  apply (getMove_returns_legal_move 7 [test_grid] 0%nat test_grid);
    [reflexivity|vm_compute; discriminate|reflexivity].
Defined.

(** C4, at the boards where it fails.  On a board without a legal move
    [getMove] does not return: [randint] is asked for a number between 0
    and -1 and raises [ValueError]. *)
Theorem getMove_raises_without_legal_move (entropy : Z) (s : store) (r : ref) (g : Grid) :
  nth_error s r = Some g -> getAvailableMoves g = [] ->
  exists probe s', getMove entropy r s = Some ((Raises ValueError, probe), s').
Proof.
  intros Hr Hmoves.
  destruct (getMove_runs entropy s r g Hr) as (a_move & v & probe & s' & Hpure & _ & Hget).
  exists probe, (s ++ s'). rewrite Hget. destruct a_move as [d|].
  - change (search_fuel 0) with 5%nat in Hpure. cbn [__maximize] in Hpure.
    destruct (cutoff g 0); [discriminate|].
    rewrite Hmoves in Hpure. discriminate.
  - rewrite Hmoves, random_move_empty. reflexivity.
Qed.

Lemma getMove_raises_without_legal_move_witness :
  nth_error [dead_board] 0 = Some dead_board /\ getAvailableMoves dead_board = [] /\
  exists probe s', getMove 0 0%nat [dead_board] = Some ((Raises ValueError, probe), s').
Proof.
  split; [reflexivity|]. split; [reflexivity|].
  apply (getMove_raises_without_legal_move 0 [dead_board] 0%nat dead_board); reflexivity.
Defined.

(** C5.  The utility of a board is
    10 smoothness + 20 monotonicity + 80 emptyCount + 10 maxTile, where
    emptyCount counts the zero-valued cells and maxTile is the largest
    tile value.  On the board of the self-test, emptyCount is 6 and
    maxTile 1024, which contribute 10720, and the utility is that plus the
    weighted smoothness and monotonicity: 10490. *)
Theorem eval_is_weighted_sum :
  (forall g, __eval g
             = 10 * __smoothness g + 20 * __monotonicity g + 80 * emptyCount g + 10 * maxTile g) /\
  emptyCount test_grid = 6 /\ maxTile test_grid = 1024 /\
  80 * emptyCount test_grid + 10 * maxTile test_grid = 10720 /\
  __eval test_grid = 10 * __smoothness test_grid + 20 * __monotonicity test_grid + 10720 /\
  __eval test_grid = 10490.
Proof.
  split; [exact eval_weighted_sum|]. repeat split; reflexivity.
Qed.

(** C6, as the code has it.  [__log2] maps 0 to 0 and a power of two
    [2^k] to [k + 1], one more than its logarithm: the tile 2 has
    exponent 2. *)
Theorem log2_is_one_more_than_exponent (k : Z) :
  0 <= k -> __log2 (2 ^ k) = k + 1 /\ __log2 (2 ^ k) <> k /\ __log2 0 = 0.
Proof.
  intros Hk. rewrite log2_power_of_two by exact Hk.
  split; [reflexivity|]. split; [lia|reflexivity].
Qed.

Lemma log2_is_one_more_than_exponent_witness :
  0 <= 1 /\ __log2 (2 ^ 1) = 1 + 1 /\ __log2 (2 ^ 1) <> 1 /\ __log2 0 = 0.
Proof.
  split; [discriminate|]. apply (log2_is_one_more_than_exponent 1). discriminate.
Defined.

Lemma obj_maximize_at_target (s : store) (r : ref) (g : Grid) (depth alpha beta : Z) (fuel : nat) :
  nth_error s r = Some g -> getMaxTile g = TARGET_TILE_VALUE ->
  obj_maximize (S fuel) r depth alpha beta s
  = Some (((None, __eval g), Static Maximizing depth g), s).
Proof.
  intros Hr Hmax.
  assert (Hcut : cutoff g depth = true).
  { unfold cutoff, __is_terminal_state. rewrite Hmax, Z.eqb_refl. apply orb_true_r. }
  cbn [obj_maximize]. run_query Hr. run_query Hr. rewrite Hcut. run_query Hr. reflexivity.
Qed.

(** C7, as the code has it.  On a board whose largest tile is the
    target, the only call of a search procedure that [getMove] makes is
    the call of [__maximize] at the root, which returns at its cutoff
    test: no loop is entered, no board is cloned, [__minimize] is never
    called.  When the board has a legal direction, [getMove] returns one,
    drawn by [randint]: the legal directions are pairwise distinct, and
    the direction at index [i] is returned exactly for the draws that are
    [i] modulo their number, each index for one draw in as many. *)
Theorem getMove_at_target_skips_search (s : store) (r : ref) (g : Grid) :
  nth_error s r = Some g -> getMaxTile g = TARGET_TILE_VALUE ->
  (forall entropy,
      exists out, getMove entropy r s = Some ((out, Static Maximizing 0 g), s)) /\
  (getAvailableMoves g <> [] ->
   NoDup (getAvailableMoves g) /\
   (forall entropy,
       exists d, getMove entropy r s = Some ((Returns d, Static Maximizing 0 g), s) /\
                 In d (getAvailableMoves g)) /\
   (forall entropy i d,
       nth_error (getAvailableMoves g) i = Some d ->
       entropy mod Z.of_nat (length (getAvailableMoves g)) = Z.of_nat i ->
       getMove entropy r s = Some ((Returns d, Static Maximizing 0 g), s))).
Proof.
  intros Hr Hmax.
  assert (Hget : forall entropy,
             getMove entropy r s
             = Some ((random_move entropy (getAvailableMoves g), Static Maximizing 0 g), s)).
  { intros entropy.
    apply (getMove_unfold entropy s s r g None (__eval g)); [|exact Hr].
    apply obj_maximize_at_target; assumption. }
  split; [intros entropy; eexists; apply Hget|].
  intros Hmoves. split; [apply getAvailableMoves_NoDup|]. split.
  - intros entropy. destruct (random_move_legal entropy _ Hmoves) as [d [Hd Hin]].
    exists d. rewrite Hget, Hd. split; [reflexivity|exact Hin].
  - intros entropy i d Hnth Hmod. rewrite Hget.
    rewrite (random_move_nth entropy _ i d Hnth Hmod). reflexivity.
Qed.

Lemma getMove_at_target_skips_search_witness :
  nth_error [won_board] 0 = Some won_board /\ getMaxTile won_board = TARGET_TILE_VALUE /\
  getAvailableMoves won_board = [UP; RIGHT] /\
  (forall entropy,
      exists out, getMove entropy 0%nat [won_board]
                  = Some ((out, Static Maximizing 0 won_board), [won_board])) /\
  getMove 6 0%nat [won_board] = Some ((Returns UP, Static Maximizing 0 won_board), [won_board]) /\
  getMove 7 0%nat [won_board] = Some ((Returns RIGHT, Static Maximizing 0 won_board), [won_board]).
Proof.
  destruct (getMove_at_target_skips_search [won_board] 0%nat won_board eq_refl eq_refl)
    as (Hstatic & Hlegal).
  assert (Hmoves : getAvailableMoves won_board <> []) by (vm_compute; discriminate).
  destruct (Hlegal Hmoves) as (_ & _ & Hdraw).
  split; [reflexivity|]. split; [reflexivity|]. split; [reflexivity|].
  split; [exact Hstatic|].
  split; [apply (Hdraw 6 0%nat UP)|apply (Hdraw 7 1%nat RIGHT)]; reflexivity.
Defined.

(** C7 as stated fails: the largest tile of [dead_won_board] is the
    target and it has no legal direction; for every draw [getMove] raises
    [ValueError] and returns no direction. *)
Lemma getMove_at_target_may_raise :
  getMaxTile dead_won_board = TARGET_TILE_VALUE /\
  getAvailableMoves dead_won_board = [] /\
  (forall entropy,
      getMove entropy 0%nat [dead_won_board]
      = Some ((Raises ValueError, Static Maximizing 0 dead_won_board), [dead_won_board])) /\
  (forall entropy d probe s',
      getMove entropy 0%nat [dead_won_board] <> Some ((Returns d, probe), s')).
Proof.
  assert (Hraise : forall entropy,
             getMove entropy 0%nat [dead_won_board]
             = Some ((Raises ValueError, Static Maximizing 0 dead_won_board), [dead_won_board])).
  { intros entropy. reflexivity. }
  split; [reflexivity|]. split; [reflexivity|]. split; [exact Hraise|].
  intros entropy d probe s'. rewrite Hraise. discriminate.
Qed.

(** C8.  [getMove], and [__maximize] and [__minimize] at every depth up to
    the limit, leave every board that existed before the call as it was,
    the board they are given included: the store after the call is the
    store before it followed by the clones the call allocated. *)
Theorem callers_board_unchanged (s : store) (r : ref) (g : Grid) :
  nth_error s r = Some g ->
  (forall entropy,
      exists out s', getMove entropy r s = Some (out, s ++ s') /\
                     nth_error (s ++ s') r = Some g) /\
  (forall depth alpha beta,
      depth <= MAX_DEPTH ->
      exists out s', obj_maximize (search_fuel depth) r depth alpha beta s = Some (out, s ++ s') /\
                     nth_error (s ++ s') r = Some g) /\
  (forall depth alpha beta,
      depth <= MAX_DEPTH ->
      exists out s', obj_minimize (search_fuel depth) r depth alpha beta s = Some (out, s ++ s') /\
                     nth_error (s ++ s') r = Some g).
Proof.
  intros Hr. repeat split.
  - intros entropy.
    destruct (getMove_runs entropy s r g Hr) as (a_move & v & probe & s' & _ & _ & Hget).
    eexists _, s'. split; [exact Hget|apply store_old, Hr].
  - intros depth alpha beta Hdepth.
    destruct (obj_maximize_returns s r g depth alpha beta Hr Hdepth)
      as (res & probe & s' & Hobj & _).
    eexists _, s'. split; [exact Hobj|apply store_old, Hr].
  - intros depth alpha beta Hdepth.
    destruct (obj_minimize_returns s r g depth alpha beta Hr Hdepth)
      as (res & probe & s' & Hobj & _).
    eexists _, s'. split; [exact Hobj|apply store_old, Hr].
Qed.

Lemma callers_board_unchanged_witness :
  nth_error [test_grid] 0 = Some test_grid /\
  exists out s', getMove 7 0%nat [test_grid] = Some (out, [test_grid] ++ s') /\
                 nth_error ([test_grid] ++ s') 0 = Some test_grid.
Proof.
  split; [reflexivity|].
  apply (callers_board_unchanged [test_grid] 0%nat test_grid eq_refl).
Defined.

(** C9.  For every board and every depth from 0 to [MAX_DEPTH], the calls
    of [__maximize] and [__minimize] return.  In the tree of calls that a
    call makes, every call from a loop is a call of the other procedure
    with the depth of its caller plus one, no depth exceeds [MAX_DEPTH],
    and a call returns at its cutoff test, with no move and the evaluation
    of its board, exactly when its depth is [MAX_DEPTH] or the largest
    tile of its board is the target. *)
Theorem search_terminates (s : store) (r : ref) (g : Grid) (depth alpha beta : Z) :
  nth_error s r = Some g -> 0 <= depth <= MAX_DEPTH ->
  (exists res probe s',
      obj_maximize (search_fuel depth) r depth alpha beta s = Some ((res, probe), s') /\
      call_role probe = Maximizing /\ call_depth probe = depth /\ call_board probe = g /\
      well_nested probe = true /\
      is_static probe = ((depth =? MAX_DEPTH) || (getMaxTile g =? TARGET_TILE_VALUE)) /\
      (is_static probe = true -> res = (None, __eval g))) /\
  (exists res probe s',
      obj_minimize (search_fuel depth) r depth alpha beta s = Some ((res, probe), s') /\
      call_role probe = Minimizing /\ call_depth probe = depth /\ call_board probe = g /\
      well_nested probe = true /\
      is_static probe = ((depth =? MAX_DEPTH) || (getMaxTile g =? TARGET_TILE_VALUE)) /\
      (is_static probe = true -> res = (None, __eval g))).
Proof.
  intros Hr [_ Hdepth]. split.
  - destruct (obj_maximize_returns s r g depth alpha beta Hr Hdepth)
      as (res & probe & s' & Hobj & Hpure & Hrole & Hd & Hboard & Hnested & Hstatic).
    assert (Hg : call_board probe = g) by congruence. rewrite Hg in Hstatic.
    exists res, probe, (s ++ s'). repeat split; trivial.
    intros Hst. rewrite Hst in Hstatic. unfold search_fuel in Hpure. cbn [__maximize] in Hpure.
    rewrite <- Hstatic in Hpure. congruence.
  - destruct (obj_minimize_returns s r g depth alpha beta Hr Hdepth)
      as (res & probe & s' & Hobj & Hpure & Hrole & Hd & Hboard & Hnested & Hstatic).
    assert (Hg : call_board probe = g) by congruence. rewrite Hg in Hstatic.
    exists res, probe, (s ++ s'). repeat split; trivial.
    intros Hst. rewrite Hst in Hstatic. unfold search_fuel in Hpure. cbn [__minimize] in Hpure.
    rewrite <- Hstatic in Hpure. congruence.
Qed.

Lemma search_terminates_witness :
  nth_error [test_grid] 0 = Some test_grid /\ 0 <= 2 <= MAX_DEPTH /\
  exists res probe s',
    obj_maximize (search_fuel 2) 0%nat 2 (- MAX_UTILITY) MAX_UTILITY [test_grid]
    = Some ((res, probe), s') /\
    call_role probe = Maximizing /\ call_depth probe = 2 /\ call_board probe = test_grid /\
    well_nested probe = true /\
    is_static probe = ((2 =? MAX_DEPTH) || (getMaxTile test_grid =? TARGET_TILE_VALUE)) /\
    (is_static probe = true -> res = (None, __eval test_grid)).
Proof.
  split; [reflexivity|]. split; [split; discriminate|].
  apply (search_terminates [test_grid] 0%nat test_grid 2 (- MAX_UTILITY) MAX_UTILITY eq_refl).
  split; discriminate.
Defined.

(** C10.  Smoothness and monotonicity are never positive: smoothness only
    subtracts absolute differences, every entry of the monotonicity
    dictionary stays at or below zero, and the utility is therefore at
    most the weighted empty-cell count and largest tile. *)
Theorem heuristics_only_penalize (g : Grid) :
  __smoothness g <= 0 /\ __monotonicity g <= 0 /\
  (forall d, mono_accumulate g d <= 0) /\
  __eval g <= 80 * emptyCount g + 10 * maxTile g.
Proof.
  pose proof (smoothness_nonpositive g) as Hs.
  pose proof (monotonicity_nonpositive g) as Hm.
  split; [exact Hs|]. split; [exact Hm|]. split; [apply mono_accumulate_nonpositive|].
  rewrite eval_weighted_sum. lia.
Qed.

(** * Further results *)

(** ** The scan of [__find_farthest_pos] *)

Lemma crossBound_false_iff (g : Grid) (pos : Position) :
  crossBound g pos = false <-> 0 <= fst pos < size g /\ 0 <= snd pos < size g.
Proof.
  unfold crossBound.
  destruct (Z.ltb_spec (fst pos) 0), (Z.leb_spec (size g) (fst pos)),
    (Z.ltb_spec (snd pos) 0), (Z.leb_spec (size g) (snd pos)); simpl;
    split; intros Hgoal; try discriminate; try reflexivity; lia.
Qed.

Lemma scan_continues_iff (g : Grid) (pos : Position) :
  scan_continues g pos = true <->
  (0 <= fst pos < size g /\ 0 <= snd pos < size g) /\ cell g (fst pos) (snd pos) = 0.
Proof.
  unfold scan_continues, canInsert, getCellValue.
  rewrite <- crossBound_false_iff.
  destruct (crossBound g pos); simpl.
  - split; [discriminate|intros [H _]; discriminate].
  - rewrite Z.eqb_eq. tauto.
Qed.

Lemma find_farthest_loop_down_scan (fuel : nat) (g : Grid) :
  forall next_pos,
    (Z.to_nat (size g - fst next_pos) <= fuel)%nat ->
    let p := find_farthest_loop fuel g next_pos DOWN_VEC in
    snd p = snd next_pos /\ fst next_pos <= fst p /\
    (forall i, fst next_pos <= i < fst p -> scan_continues g (i, snd next_pos) = true) /\
    scan_continues g p = false.
Proof.
  induction fuel as [|fuel IH]; intros next_pos Hfuel; cbn [find_farthest_loop]; cbv zeta.
  - repeat split; try lia.
    destruct (scan_continues g next_pos) eqn:E; [|reflexivity].
    apply scan_continues_inside in E. lia.
  - fold (scan_continues g next_pos). destruct (scan_continues g next_pos) eqn:E.
    + pose proof (scan_continues_inside g next_pos E) as Hin.
      destruct (IH (pos_add next_pos DOWN_VEC) ltac:(simpl; lia)) as (Hc & Hr & Hbetween & Hstop).
      simpl in Hc, Hr, Hbetween. rewrite Z.add_0_r in Hc, Hbetween.
      repeat split; [exact Hc|lia| |exact Hstop].
      intros i Hi. destruct (Z.eq_dec i (fst next_pos)) as [->|Hne].
      * destruct next_pos; exact E.
      * apply Hbetween. lia.
    + repeat split; [lia| |exact E]. intros i Hi. lia.
Qed.

Lemma find_farthest_loop_right_scan (fuel : nat) (g : Grid) :
  forall next_pos,
    (Z.to_nat (size g - snd next_pos) <= fuel)%nat ->
    let p := find_farthest_loop fuel g next_pos RIGHT_VEC in
    fst p = fst next_pos /\ snd next_pos <= snd p /\
    (forall j, snd next_pos <= j < snd p -> scan_continues g (fst next_pos, j) = true) /\
    scan_continues g p = false.
Proof.
  induction fuel as [|fuel IH]; intros next_pos Hfuel; cbn [find_farthest_loop]; cbv zeta.
  - repeat split; try lia.
    destruct (scan_continues g next_pos) eqn:E; [|reflexivity].
    apply scan_continues_inside in E. lia.
  - fold (scan_continues g next_pos). destruct (scan_continues g next_pos) eqn:E.
    + pose proof (scan_continues_inside g next_pos E) as Hin.
      destruct (IH (pos_add next_pos RIGHT_VEC) ltac:(simpl; lia)) as (Hr & Hc & Hbetween & Hstop).
      simpl in Hc, Hr, Hbetween. rewrite Z.add_0_r in Hr, Hbetween.
      repeat split; [exact Hr|lia| |exact Hstop].
      intros j Hj. destruct (Z.eq_dec j (snd next_pos)) as [->|Hne].
      * destruct next_pos; exact E.
      * apply Hbetween. lia.
    + repeat split; [lia| |exact E]. intros j Hj. lia.
Qed.

(** X1.  Scanning down from a cell of the board, [__find_farthest_pos]
    stays in the column and stops strictly below the cell, at the first
    occupied cell or, when there is none, one row past the last: every
    cell it passed is empty.  Scanning right is the same along the row. *)
Theorem find_farthest_pos_scan (g : Grid) (r c : Z) :
  0 <= r < size g -> 0 <= c < size g ->
  (let p := __find_farthest_pos g (r, c) DOWN_VEC in
   snd p = c /\ r < fst p <= size g /\
   (forall i, r < i < fst p -> cell g i c = 0) /\
   (fst p < size g -> cell g (fst p) c <> 0)) /\
  (let p := __find_farthest_pos g (r, c) RIGHT_VEC in
   fst p = r /\ c < snd p <= size g /\
   (forall j, c < j < snd p -> cell g r j = 0) /\
   (snd p < size g -> cell g r (snd p) <> 0)).
Proof.
  intros Hr Hc. unfold __find_farthest_pos. split; cbv zeta.
  - destruct (find_farthest_loop_down_scan (Z.to_nat (size g)) g (pos_add (r, c) DOWN_VEC)
                ltac:(simpl; lia)) as (Hcol & Hrow & Hbetween & Hstop).
    set (p := find_farthest_loop _ g _ DOWN_VEC) in *. simpl in Hcol, Hrow, Hbetween.
    rewrite Z.add_0_r in Hcol, Hbetween.
    assert (Hle : fst p <= size g).
    { destruct (Z.le_gt_cases (fst p) (size g)) as [H|H]; [exact H|].
      specialize (Hbetween (size g) ltac:(lia)). apply scan_continues_inside in Hbetween.
      simpl in Hbetween. lia. }
    repeat split; try lia.
    + intros i Hi. specialize (Hbetween i ltac:(lia)).
      apply scan_continues_iff in Hbetween. apply Hbetween.
    + intros Hlt Hzero. assert (Hgo : scan_continues g p = true); [|congruence].
      apply scan_continues_iff. rewrite Hcol. repeat split; first [lia|exact Hzero].
  - destruct (find_farthest_loop_right_scan (Z.to_nat (size g)) g (pos_add (r, c) RIGHT_VEC)
                ltac:(simpl; lia)) as (Hrow & Hcol & Hbetween & Hstop).
    set (p := find_farthest_loop _ g _ RIGHT_VEC) in *. simpl in Hcol, Hrow, Hbetween.
    rewrite Z.add_0_r in Hrow, Hbetween.
    assert (Hle : snd p <= size g).
    { destruct (Z.le_gt_cases (snd p) (size g)) as [H|H]; [exact H|].
      specialize (Hbetween (size g) ltac:(lia)). apply scan_continues_inside in Hbetween.
      simpl in Hbetween. lia. }
    repeat split; try lia.
    + intros j Hj. specialize (Hbetween j ltac:(lia)).
      apply scan_continues_iff in Hbetween. apply Hbetween.
    + intros Hlt Hzero. assert (Hgo : scan_continues g p = true); [|congruence].
      apply scan_continues_iff. rewrite Hrow. repeat split; first [lia|exact Hzero].
Qed.

Lemma find_farthest_pos_scan_witness :
  0 <= 0 < size test_grid /\ 0 <= 1 < size test_grid /\
  __find_farthest_pos test_grid (0, 1) DOWN_VEC = (2, 1) /\
  (let p := __find_farthest_pos test_grid (0, 1) DOWN_VEC in
   snd p = 1 /\ 0 < fst p <= size test_grid /\
   (forall i, 0 < i < fst p -> cell test_grid i 1 = 0) /\
   (fst p < size test_grid -> cell test_grid (fst p) 1 <> 0)).
Proof.
  assert (Hr : 0 <= 0 < size test_grid) by (simpl; lia).
  assert (Hc : 0 <= 1 < size test_grid) by (simpl; lia).
  split; [exact Hr|]. split; [exact Hc|]. split; [reflexivity|].
  apply (find_farthest_pos_scan test_grid 0 1 Hr Hc).
Defined.

(** ** The exponent of an arbitrary positive value *)

Lemma lxor_even_odd (a b : Z) : Z.lxor (2 * a) (2 * b + 1) = 2 * Z.lxor a b + 1.
Proof.
  apply Z.bits_inj'. intros n Hn. rewrite Z.lxor_spec.
  destruct (Z.eq_dec n 0) as [->|Hne].
  - rewrite Z.testbit_even_0, !Z.testbit_odd_0. reflexivity.
  - replace n with (Z.succ (n - 1)) by lia.
    rewrite Z.testbit_even_succ, !Z.testbit_odd_succ, Z.lxor_spec by lia. reflexivity.
Qed.

Lemma lxor_odd_even (a b : Z) : Z.lxor (2 * a + 1) (2 * b) = 2 * Z.lxor a b + 1.
Proof. rewrite Z.lxor_comm, lxor_even_odd, Z.lxor_comm. reflexivity. Qed.

Lemma count_ones_lowest_bit (p : positive) :
  count_ones (Z.lxor (Z.pos p) (Z.pos p - 1)) = Z.of_nat (trailing_zeros p) + 1.
Proof.
  induction p as [q IH|q IH|].
  - replace (Z.pos q~1 - 1) with (2 * Z.pos q) by lia.
    rewrite Pos2Z.inj_xI, lxor_odd_even, Z.lxor_nilpotent. reflexivity.
  - replace (Z.pos q~0 - 1) with (2 * (Z.pos q - 1) + 1) by lia.
    rewrite Pos2Z.inj_xO, lxor_even_odd, count_ones_double_succ, IH.
    + cbn [trailing_zeros]. lia.
    + apply Z.lxor_nonneg. lia.
  - reflexivity.
Qed.

(** X2.  For every positive value, [__log2] is one more than the number
    of zero bits below its lowest set bit; in particular it is positive,
    so an occupied cell never has the exponent 0 of an empty one. *)
Theorem log2_counts_trailing_zeros (p : positive) :
  __log2 (Z.pos p) = Z.of_nat (trailing_zeros p) + 1 /\ 0 < __log2 (Z.pos p).
Proof.
  assert (H : __log2 (Z.pos p) = Z.of_nat (trailing_zeros p) + 1).
  { unfold __log2. cbn [Z.eqb negb]. apply count_ones_lowest_bit. }
  rewrite H. split; [reflexivity|lia].
Qed.

(** ** Smoothness of equal tiles *)

Lemma fold_left_invariant_in {A B : Type} (P : A -> Prop) (f : A -> B -> A) (l : list B) :
  (forall a b, In b l -> P a -> P (f a b)) -> forall a, P a -> P (fold_left f l a).
Proof.
  induction l as [|b l IH]; simpl; intros Hstep a Ha.
  - exact Ha.
  - apply IH; [intros a' b' Hb'; apply Hstep; right; exact Hb'|].
    apply Hstep; [left; reflexivity|exact Ha].
Qed.

Lemma terminal_value_occupied (g : Grid) (start_pos direction_vec : Position) (value : Z) :
  In start_pos (positions (size g)) ->
  direction_vec = DOWN_VEC \/ direction_vec = RIGHT_VEC ->
  getCellValue g (__find_farthest_pos g start_pos direction_vec) = Some value ->
  exists i j, 0 <= i < size g /\ 0 <= j < size g /\ value = cell g i j /\ value <> 0.
Proof.
  intros Hin Hvec Hget. apply in_positions in Hin.
  pose proof (find_farthest_fuel g start_pos direction_vec Hvec ltac:(lia) ltac:(lia)) as Hstop.
  set (p := __find_farthest_pos g start_pos direction_vec) in *.
  unfold getCellValue in Hget. destruct (crossBound g p) eqn:Hcross; [discriminate|].
  injection Hget as <-. apply crossBound_false_iff in Hcross.
  exists (fst p), (snd p). repeat split; try lia.
  intros Hzero. assert (Hgo : scan_continues g p = true); [|congruence].
  apply scan_continues_iff. tauto.
Qed.

(** X3.  A board whose occupied cells all hold the same value has
    smoothness 0: every occupied cell is compared with an occupied
    neighbour of equal exponent, or with none. *)
Theorem smoothness_of_equal_tiles (g : Grid) (v : Z) :
  (forall i j, 0 <= i < size g -> 0 <= j < size g -> cell g i j = 0 \/ cell g i j = v) ->
  __smoothness g = 0.
Proof.
  intros Hsame. unfold __smoothness.
  apply (fold_left_invariant_in (fun s => s = 0)); [|reflexivity].
  intros s start_pos Hin Hs.
  destruct (canInsert g start_pos) eqn:Hocc; cbn [negb]; [exact Hs|].
  assert (Hstart : cell g (fst start_pos) (snd start_pos) = v).
  { unfold canInsert in Hocc. rewrite getCellValue_positions in Hocc by exact Hin.
    apply Z.eqb_neq in Hocc. apply in_positions in Hin.
    destruct (Hsame (fst start_pos) (snd start_pos)) as [H|H]; tauto. }
  rewrite Hstart.
  assert (Hterm : forall vec value,
             vec = DOWN_VEC \/ vec = RIGHT_VEC ->
             getCellValue g (__find_farthest_pos g start_pos vec) = Some value -> value = v).
  { intros vec value Hvec Hget.
    destruct (terminal_value_occupied g start_pos vec value Hin Hvec Hget)
      as (i & j & Hi & Hj & -> & Hnz).
    destruct (Hsame i j Hi Hj) as [H|H]; [contradiction|exact H]. }
  cbn [fold_left].
  destruct (getCellValue g (__find_farthest_pos g start_pos DOWN_VEC)) as [down|] eqn:Hdown;
    [rewrite (Hterm DOWN_VEC down (or_introl eq_refl) Hdown)|];
    (destruct (getCellValue g (__find_farthest_pos g start_pos RIGHT_VEC)) as [right|] eqn:Hright;
     [rewrite (Hterm RIGHT_VEC right (or_intror eq_refl) Hright)|]);
    rewrite ?Z.sub_diag; simpl; lia.
Qed.

Lemma smoothness_of_equal_tiles_witness :
  (forall i j, 0 <= i < size equal_tiles_board -> 0 <= j < size equal_tiles_board ->
               cell equal_tiles_board i j = 0 \/ cell equal_tiles_board i j = 4) /\
  __smoothness equal_tiles_board = 0.
Proof.
  assert (H : forall i j, 0 <= i < size equal_tiles_board -> 0 <= j < size equal_tiles_board ->
              cell equal_tiles_board i j = 0 \/ cell equal_tiles_board i j = 4).
  { intros i j Hi Hj. simpl in Hi, Hj.
    assert (Hi' : i = 0 \/ i = 1) by lia. assert (Hj' : j = 0 \/ j = 1) by lia.
    destruct Hi' as [-> | ->], Hj' as [-> | ->]; vm_compute; auto. }
  split; [exact H|].
  apply (smoothness_of_equal_tiles equal_tiles_board 4 H).
Defined.

(** ** The loops of the evaluator end *)

Lemma find_farthest_loop_stable (fuel extra : nat) (g : Grid) (direction_vec : Position) :
  forall next_pos,
    scan_continues g (find_farthest_loop fuel g next_pos direction_vec) = false ->
    find_farthest_loop (fuel + extra) g next_pos direction_vec
    = find_farthest_loop fuel g next_pos direction_vec.
Proof.
  induction fuel as [|fuel IH]; intros next_pos; cbn [find_farthest_loop Nat.add].
  - intros Hstop. destruct extra as [|extra]; [reflexivity|]. cbn [find_farthest_loop].
    fold (scan_continues g next_pos). rewrite Hstop. reflexivity.
  - fold (scan_continues g next_pos). destruct (scan_continues g next_pos); [apply IH|reflexivity].
Qed.

(** X4.  The [while] loops of the evaluator end.  A scan down or right
    from a position with non-negative coordinates needs at most [size]
    passes, and each loop of [__monotonicity] at most [size + 1]: allowing
    more passes changes no result. *)
Theorem evaluator_loops_end (g : Grid) (extra : nat) :
  (forall start_pos direction_vec,
      direction_vec = DOWN_VEC \/ direction_vec = RIGHT_VEC ->
      0 <= fst start_pos -> 0 <= snd start_pos ->
      find_farthest_loop (Z.to_nat (size g) + extra) g (pos_add start_pos direction_vec)
                         direction_vec
      = __find_farthest_pos g start_pos direction_vec) /\
  (forall col m, mono_col_loop (mono_fuel g + extra) g col 0 0 m
                 = mono_col_loop (mono_fuel g) g col 0 0 m) /\
  (forall row m, mono_row_loop (mono_fuel g + extra) g row 0 0 m
                 = mono_row_loop (mono_fuel g) g row 0 0 m).
Proof.
  repeat split.
  - intros start_pos direction_vec Hvec Hrow Hcol.
    apply find_farthest_loop_stable. apply find_farthest_fuel; assumption.
  - intros col m. apply mono_col_fuel. unfold mono_fuel. lia.
  - intros row m. apply mono_row_fuel. unfold mono_fuel. lia.
Qed.

(** ** Monotonicity of a monotone board *)

Lemma mono_col_loop_frame (fuel : nat) (g : Grid) (col : Z) (d : Direction) :
  d = LEFT \/ d = RIGHT ->
  forall current_row next_row m, mono_col_loop fuel g col current_row next_row m d = m d.
Proof.
  intros Hd. induction fuel as [|fuel IH]; intros current_row next_row m;
    cbn [mono_col_loop]; [reflexivity|].
  destruct (next_row <? size g); [|reflexivity]. cbv zeta. rewrite IH.
  destruct (_ <? _); unfold mono_add; destruct Hd as [-> | ->]; reflexivity.
Qed.

Lemma mono_row_loop_frame (fuel : nat) (g : Grid) (row : Z) (d : Direction) :
  d = UP \/ d = DOWN ->
  forall current_col next_col m, mono_row_loop fuel g row current_col next_col m d = m d.
Proof.
  intros Hd. induction fuel as [|fuel IH]; intros current_col next_col m;
    cbn [mono_row_loop]; [reflexivity|].
  destruct (next_col <? size g); [|reflexivity]. cbv zeta. rewrite IH.
  destruct (_ <? _); unfold mono_add; destruct Hd as [-> | ->]; reflexivity.
Qed.

Section FullBoard.
Variable g : Grid.
Hypothesis full : forall i j, 0 <= i < size g -> 0 <= j < size g -> cell g i j <> 0.

Lemma full_scan_stops (pos : Position) : scan_continues g pos = false.
Proof.
  destruct (scan_continues g pos) eqn:E; [|reflexivity].
  apply scan_continues_iff in E. destruct E as [[Hi Hj] Hzero].
  exfalso. exact (full _ _ Hi Hj Hzero).
Qed.

Lemma full_find_farthest (start_pos direction_vec : Position) :
  __find_farthest_pos g start_pos direction_vec = pos_add start_pos direction_vec.
Proof.
  unfold __find_farthest_pos. destruct (Z.to_nat (size g)); cbn [find_farthest_loop];
    [reflexivity|].
  fold (scan_continues g (pos_add start_pos direction_vec)). rewrite full_scan_stops. reflexivity.
Qed.

(** One column of a full board: [keep] is the entry that the passes leave
    alone, [UP] when the column increases downward and [DOWN] when it
    does not increase. *)
Lemma full_col_loop (col : Z) (keep : Direction) :
  (keep = UP /\ forall i, 0 <= i -> i + 1 < size g ->
                          __log2 (cell g i col) < __log2 (cell g (i + 1) col)) \/
  (keep = DOWN /\ forall i, 0 <= i -> i + 1 < size g ->
                            __log2 (cell g (i + 1) col) <= __log2 (cell g i col)) ->
  forall fuel x m, 0 <= x -> mono_col_loop fuel g col x x m keep = m keep.
Proof.
  intros Hcase. induction fuel as [|fuel IH]; intros x m Hx; cbn [mono_col_loop];
    [reflexivity|].
  destruct (Z.ltb_spec x (size g)) as [Hlt|Hge]; [|reflexivity]. cbv zeta.
  rewrite full_find_farthest. cbn [pos_add fst snd DOWN_VEC]. rewrite IH by lia.
  destruct (Z.eqb_spec (x + 1) (size g)) as [Hlast|Hnext].
  - replace (size g - 1) with x by lia. rewrite Z.ltb_irrefl. unfold mono_add.
    destruct Hcase as [[-> _]|[-> _]]; simpl; lia.
  - destruct Hcase as [[-> Hinc]|[-> Hdec]].
    + specialize (Hinc x Hx ltac:(lia)).
      destruct (Z.ltb_spec (__log2 (cell g x col)) (__log2 (cell g (x + 1) col))); [|lia].
      reflexivity.
    + specialize (Hdec x Hx ltac:(lia)).
      destruct (Z.ltb_spec (__log2 (cell g x col)) (__log2 (cell g (x + 1) col))); [lia|].
      reflexivity.
Qed.

Lemma full_row_loop (row : Z) (keep : Direction) :
  (keep = LEFT /\ forall j, 0 <= j -> j + 1 < size g ->
                            __log2 (cell g row j) < __log2 (cell g row (j + 1))) \/
  (keep = RIGHT /\ forall j, 0 <= j -> j + 1 < size g ->
                             __log2 (cell g row (j + 1)) <= __log2 (cell g row j)) ->
  forall fuel x m, 0 <= x -> mono_row_loop fuel g row x x m keep = m keep.
Proof.
  intros Hcase. induction fuel as [|fuel IH]; intros x m Hx; cbn [mono_row_loop];
    [reflexivity|].
  destruct (Z.ltb_spec x (size g)) as [Hlt|Hge]; [|reflexivity]. cbv zeta.
  rewrite full_find_farthest. cbn [pos_add fst snd RIGHT_VEC]. rewrite IH by lia.
  destruct (Z.eqb_spec (x + 1) (size g)) as [Hlast|Hnext].
  - replace (size g - 1) with x by lia. rewrite Z.ltb_irrefl. unfold mono_add.
    destruct Hcase as [[-> _]|[-> _]]; simpl; lia.
  - destruct Hcase as [[-> Hinc]|[-> Hdec]].
    + specialize (Hinc x Hx ltac:(lia)).
      destruct (Z.ltb_spec (__log2 (cell g row x)) (__log2 (cell g row (x + 1)))); [|lia].
      reflexivity.
    + specialize (Hdec x Hx ltac:(lia)).
      destruct (Z.ltb_spec (__log2 (cell g row x)) (__log2 (cell g row (x + 1)))); [lia|].
      reflexivity.
Qed.
End FullBoard.

Lemma monotone_columns_keep (g : Grid) (keep : Direction) :
  (forall i j, 0 <= i < size g -> 0 <= j < size g -> cell g i j <> 0) ->
  (keep = UP /\ forall i j, 0 <= i -> i + 1 < size g -> 0 <= j < size g ->
                            __log2 (cell g i j) < __log2 (cell g (i + 1) j)) \/
  (keep = DOWN /\ forall i j, 0 <= i -> i + 1 < size g -> 0 <= j < size g ->
                              __log2 (cell g (i + 1) j) <= __log2 (cell g i j)) ->
  mono_accumulate g keep = 0.
Proof.
  intros Hfull Hcase. unfold mono_accumulate.
  apply (fold_left_invariant (fun m : mono_dict => m keep = 0)).
  - intros m row Hm. rewrite mono_row_loop_frame; [exact Hm|].
    destruct Hcase as [[-> _]|[-> _]]; auto.
  - apply (fold_left_invariant_in (fun m : mono_dict => m keep = 0)); [|reflexivity].
    intros m col Hcol Hm. apply in_range in Hcol.
    rewrite (full_col_loop g Hfull col keep); [exact Hm| |lia].
    destruct Hcase as [[-> H]|[-> H]]; [left|right]; (split; [reflexivity|]);
      intros i Hi Hi'; apply H; lia.
Qed.

Lemma monotone_rows_keep (g : Grid) (keep : Direction) :
  (forall i j, 0 <= i < size g -> 0 <= j < size g -> cell g i j <> 0) ->
  (keep = LEFT /\ forall i j, 0 <= i < size g -> 0 <= j -> j + 1 < size g ->
                              __log2 (cell g i j) < __log2 (cell g i (j + 1))) \/
  (keep = RIGHT /\ forall i j, 0 <= i < size g -> 0 <= j -> j + 1 < size g ->
                               __log2 (cell g i (j + 1)) <= __log2 (cell g i j)) ->
  mono_accumulate g keep = 0.
Proof.
  intros Hfull Hcase. unfold mono_accumulate.
  apply (fold_left_invariant_in (fun m : mono_dict => m keep = 0)).
  - intros m row Hrow Hm. apply in_range in Hrow.
    rewrite (full_row_loop g Hfull row keep); [exact Hm| |lia].
    destruct Hcase as [[-> H]|[-> H]]; [left|right]; (split; [reflexivity|]);
      intros j Hj Hj'; apply H; lia.
  - apply (fold_left_invariant (fun m : mono_dict => m keep = 0)); [|reflexivity].
    intros m col Hm. rewrite mono_col_loop_frame; [exact Hm|].
    destruct Hcase as [[-> _]|[-> _]]; auto.
Qed.

(** X5.  On a board without an empty cell, if the exponents of
    [__log2] either increase strictly down every column or never
    increase down any column, and likewise along the rows, then
    monotonicity is 0, its largest value: one accumulator of each axis is
    never charged. *)
Theorem monotonicity_of_monotone_board (g : Grid) :
  (forall i j, 0 <= i < size g -> 0 <= j < size g -> cell g i j <> 0) ->
  (forall i j, 0 <= i -> i + 1 < size g -> 0 <= j < size g ->
               __log2 (cell g i j) < __log2 (cell g (i + 1) j)) \/
  (forall i j, 0 <= i -> i + 1 < size g -> 0 <= j < size g ->
               __log2 (cell g (i + 1) j) <= __log2 (cell g i j)) ->
  (forall i j, 0 <= i < size g -> 0 <= j -> j + 1 < size g ->
               __log2 (cell g i j) < __log2 (cell g i (j + 1))) \/
  (forall i j, 0 <= i < size g -> 0 <= j -> j + 1 < size g ->
               __log2 (cell g i (j + 1)) <= __log2 (cell g i j)) ->
  __monotonicity g = 0.
Proof.
  intros Hfull Hcols Hrows. unfold __monotonicity. cbv zeta.
  pose proof (mono_accumulate_nonpositive g) as Hnp.
  pose proof (Hnp UP). pose proof (Hnp DOWN). pose proof (Hnp LEFT). pose proof (Hnp RIGHT).
  assert (Hvertical : Z.max (mono_accumulate g UP) (mono_accumulate g DOWN) = 0).
  { destruct Hcols as [Hinc|Hdec].
    - rewrite (monotone_columns_keep g UP Hfull); [lia|]. left. split; [reflexivity|exact Hinc].
    - rewrite (monotone_columns_keep g DOWN Hfull); [lia|]. right. split; [reflexivity|exact Hdec]. }
  assert (Hhorizontal : Z.max (mono_accumulate g LEFT) (mono_accumulate g RIGHT) = 0).
  { destruct Hrows as [Hinc|Hdec].
    - rewrite (monotone_rows_keep g LEFT Hfull); [lia|]. left. split; [reflexivity|exact Hinc].
    - rewrite (monotone_rows_keep g RIGHT Hfull); [lia|]. right. split; [reflexivity|exact Hdec]. }
  lia.
Qed.

Lemma monotonicity_of_monotone_board_witness :
  (forall i j, 0 <= i < size staircase_board -> 0 <= j < size staircase_board ->
               cell staircase_board i j <> 0) /\
  (forall i j, 0 <= i -> i + 1 < size staircase_board -> 0 <= j < size staircase_board ->
               __log2 (cell staircase_board i j) < __log2 (cell staircase_board (i + 1) j)) /\
  (forall i j, 0 <= i < size staircase_board -> 0 <= j -> j + 1 < size staircase_board ->
               __log2 (cell staircase_board i j) < __log2 (cell staircase_board i (j + 1))) /\
  __monotonicity staircase_board = 0.
Proof.
  assert (Hfull : forall i j, 0 <= i < size staircase_board -> 0 <= j < size staircase_board ->
                              cell staircase_board i j <> 0).
  { intros i j Hi Hj. simpl in Hi, Hj.
    assert (Hi' : i = 0 \/ i = 1) by lia. assert (Hj' : j = 0 \/ j = 1) by lia.
    destruct Hi' as [-> | ->], Hj' as [-> | ->]; vm_compute; discriminate. }
  assert (Hcols : forall i j, 0 <= i -> i + 1 < size staircase_board ->
                              0 <= j < size staircase_board ->
                              __log2 (cell staircase_board i j)
                              < __log2 (cell staircase_board (i + 1) j)).
  { intros i j Hi Hi' Hj. simpl in Hi', Hj.
    assert (Hi0 : i = 0) by lia. assert (Hj' : j = 0 \/ j = 1) by lia.
    subst i. destruct Hj' as [-> | ->]; vm_compute; reflexivity. }
  assert (Hrows : forall i j, 0 <= i < size staircase_board -> 0 <= j ->
                              j + 1 < size staircase_board ->
                              __log2 (cell staircase_board i j)
                              < __log2 (cell staircase_board i (j + 1))).
  { intros i j Hi Hj Hj'. simpl in Hi, Hj'.
    assert (Hj0 : j = 0) by lia. assert (Hi' : i = 0 \/ i = 1) by lia.
    subst j. destruct Hi' as [-> | ->]; vm_compute; reflexivity. }
  split; [exact Hfull|]. split; [exact Hcols|]. split; [exact Hrows|].
  apply (monotonicity_of_monotone_board staircase_board Hfull (or_introl Hcols) (or_introl Hrows)).
Defined.

(** ** What the two procedures report *)

Lemma maximize_loop_reports (minimize : Grid -> Z -> Z -> Z -> option minimize_result)
      (g : Grid) (depth beta : Z) (legal : list Direction) :
  forall moves max_move max_utility alpha mv v,
    (forall d, In d moves -> In d legal) ->
    - MAX_UTILITY <= max_utility ->
    (max_move = None <-> max_utility = - MAX_UTILITY) ->
    (forall d, max_move = Some d ->
               In d legal /\
               exists alpha' c, minimize (move g d) (depth + 1) alpha' beta = Some (c, max_utility)) ->
    maximize_loop minimize g depth moves max_move max_utility alpha beta = Some (mv, v) ->
    - MAX_UTILITY <= v /\
    (mv = None <-> v = - MAX_UTILITY) /\
    (forall d, mv = Some d ->
               In d legal /\
               exists alpha' c, minimize (move g d) (depth + 1) alpha' beta = Some (c, v)).
Proof.
  induction moves as [|a_move moves IH];
    intros max_move max_utility alpha mv v Hlegal Hlow Hnone Hsome; cbn [maximize_loop].
  - intros [= <- <-]. auto.
  - rewrite clone_eq.
    destruct (minimize (move g a_move) (depth + 1) alpha beta) as [[c utility]|] eqn:Hchild;
      [|discriminate].
    rewrite !Z.gtb_ltb.
    assert (Hinv :
              - MAX_UTILITY <= (if max_utility <? utility then utility else max_utility) /\
              ((if max_utility <? utility then Some a_move else max_move) = None <->
               (if max_utility <? utility then utility else max_utility) = - MAX_UTILITY) /\
              (forall d, (if max_utility <? utility then Some a_move else max_move) = Some d ->
                         In d legal /\
                         exists alpha' c',
                           minimize (move g d) (depth + 1) alpha' beta
                           = Some (c', if max_utility <? utility then utility else max_utility))).
    { destruct (Z.ltb_spec max_utility utility) as [Hbetter|Hworse].
      - split; [lia|]. split; [split; [discriminate|lia]|].
        intros d [= <-]. split; [apply Hlegal; left; reflexivity|eauto].
      - auto. }
    destruct Hinv as (Hlow' & Hnone' & Hsome').
    destruct (utility >=? beta).
    + intros [= <- <-]. auto.
    + apply IH; auto. intros d Hd. apply Hlegal. right. exact Hd.
Qed.

Lemma minimize_loop_reports (maximize : Grid -> Z -> Z -> Z -> option maximize_result)
      (g : Grid) (depth alpha : Z) (empty : list Position) :
  forall cells min_move min_utility beta mv v,
    (forall p, In p cells -> In p empty) ->
    min_utility <= MAX_UTILITY ->
    (min_move = None <-> min_utility = MAX_UTILITY) ->
    (forall p, min_move = Some p ->
               In p empty /\
               exists beta' c,
                 maximize (setCellValue g p 2) (depth + 1) alpha beta' = Some (c, min_utility)) ->
    minimize_loop maximize g depth cells min_move min_utility alpha beta = Some (mv, v) ->
    v <= MAX_UTILITY /\
    (mv = None <-> v = MAX_UTILITY) /\
    (forall p, mv = Some p ->
               In p empty /\
               exists beta' c, maximize (setCellValue g p 2) (depth + 1) alpha beta' = Some (c, v)).
Proof.
  induction cells as [|a_cell cells IH];
    intros min_move min_utility beta mv v Hempty Hup Hnone Hsome; cbn [minimize_loop].
  - intros [= <- <-]. auto.
  - rewrite clone_eq. unfold TILE_VALUE_PROBA. cbn [expected_loop].
    destruct (maximize (setCellValue g a_cell 2) (depth + 1) alpha beta) as [[c utility]|] eqn:Hchild;
      [|discriminate].
    rewrite weighted_single.
    assert (Hinv :
              (if utility <? min_utility then utility else min_utility) <= MAX_UTILITY /\
              ((if utility <? min_utility then Some a_cell else min_move) = None <->
               (if utility <? min_utility then utility else min_utility) = MAX_UTILITY) /\
              (forall p, (if utility <? min_utility then Some a_cell else min_move) = Some p ->
                         In p empty /\
                         exists beta' c',
                           maximize (setCellValue g p 2) (depth + 1) alpha beta'
                           = Some (c', if utility <? min_utility then utility else min_utility))).
    { destruct (Z.ltb_spec utility min_utility) as [Hbetter|Hworse].
      - split; [lia|]. split; [split; [discriminate|lia]|].
        intros p [= <-]. split; [apply Hempty; left; reflexivity|eauto].
      - auto. }
    destruct Hinv as (Hup' & Hnone' & Hsome').
    destruct (utility <=? alpha).
    + intros [= <- <-]. auto.
    + apply IH; auto. intros p Hp. apply Hempty. right. exact Hp.
Qed.

Lemma search_fuel_step (depth : Z) :
  depth < MAX_DEPTH -> search_fuel depth = S (search_fuel (depth + 1)).
Proof. unfold search_fuel, MAX_DEPTH. intros H. lia. Qed.

Lemma not_cutoff (g : Grid) (depth : Z) :
  depth < MAX_DEPTH -> getMaxTile g <> TARGET_TILE_VALUE -> cutoff g depth = false.
Proof.
  intros Hdepth Hmax. unfold cutoff, __is_terminal_state.
  apply orb_false_intro; apply Z.eqb_neq; [lia|exact Hmax].
Qed.

(** X6.  Below the depth limit and the target, [__maximize] reports a
    move exactly when its utility is above [-MAX_UTILITY]; the move is
    then a legal shift of the board, and the utility is the one
    [__minimize] returned for the board after that shift. *)
Theorem maximize_reports (g : Grid) (depth alpha beta : Z) :
  depth < MAX_DEPTH -> getMaxTile g <> TARGET_TILE_VALUE ->
  exists mv v,
    __maximize (search_fuel depth) g depth alpha beta = Some (mv, v) /\
    - MAX_UTILITY <= v /\
    (mv = None <-> v = - MAX_UTILITY) /\
    (forall d, mv = Some d ->
               In d (getAvailableMoves g) /\
               exists alpha' c,
                 __minimize (search_fuel (depth + 1)) (move g d) (depth + 1) alpha' beta
                 = Some (c, v)).
Proof.
  intros Hdepth Hmax.
  destruct (search_fuel_enough depth ltac:(lia)) as [Htotal _].
  destruct (Htotal g alpha beta) as [[mv v] Hrun].
  exists mv, v. split; [exact Hrun|].
  rewrite (search_fuel_step depth Hdepth) in Hrun. cbn [__maximize] in Hrun.
  rewrite (not_cutoff g depth Hdepth Hmax) in Hrun.
  apply (maximize_loop_reports _ g depth beta (getAvailableMoves g)) in Hrun; auto.
  - lia.
  - tauto.
  - intros d [=].
Qed.

Lemma maximize_reports_witness :
  3 < MAX_DEPTH /\ getMaxTile test_grid <> TARGET_TILE_VALUE /\
  exists mv v,
    __maximize (search_fuel 3) test_grid 3 0 0 = Some (mv, v) /\
    - MAX_UTILITY <= v /\
    (mv = None <-> v = - MAX_UTILITY) /\
    (forall d, mv = Some d ->
               In d (getAvailableMoves test_grid) /\
               exists alpha' c,
                 __minimize (search_fuel (3 + 1)) (move test_grid d) (3 + 1) alpha' 0
                 = Some (c, v)).
Proof.
  split; [reflexivity|]. split; [vm_compute; discriminate|].
  apply (maximize_reports test_grid 3 0 0); [reflexivity|vm_compute; discriminate].
Defined.

(** X7.  Below the depth limit and the target, [__minimize] reports a
    cell exactly when its utility is below [MAX_UTILITY], which it never
    exceeds; the cell is then an empty cell of the board, and the utility
    is the one [__maximize] returned for the board with a 2 in that
    cell: the division by the weight 9 loses nothing. *)
Theorem minimize_reports (g : Grid) (depth alpha beta : Z) :
  depth < MAX_DEPTH -> getMaxTile g <> TARGET_TILE_VALUE ->
  exists mv v,
    __minimize (search_fuel depth) g depth alpha beta = Some (mv, v) /\
    v <= MAX_UTILITY /\
    (mv = None <-> v = MAX_UTILITY) /\
    (forall p, mv = Some p ->
               In p (getAvailableCells g) /\
               exists beta' c,
                 __maximize (search_fuel (depth + 1)) (setCellValue g p 2) (depth + 1) alpha beta'
                 = Some (c, v)).
Proof.
  intros Hdepth Hmax.
  destruct (search_fuel_enough depth ltac:(lia)) as [_ Htotal].
  destruct (Htotal g alpha beta) as [[mv v] Hrun].
  exists mv, v. split; [exact Hrun|].
  rewrite (search_fuel_step depth Hdepth) in Hrun. cbn [__minimize] in Hrun.
  rewrite (not_cutoff g depth Hdepth Hmax) in Hrun.
  apply (minimize_loop_reports _ g depth alpha (getAvailableCells g)) in Hrun; auto.
  - lia.
  - tauto.
  - intros p [=].
Qed.

Lemma minimize_reports_witness :
  3 < MAX_DEPTH /\ getMaxTile test_grid <> TARGET_TILE_VALUE /\
  exists mv v,
    __minimize (search_fuel 3) test_grid 3 (- MAX_UTILITY) MAX_UTILITY = Some (mv, v) /\
    v <= MAX_UTILITY /\
    (mv = None <-> v = MAX_UTILITY) /\
    (forall p, mv = Some p ->
               In p (getAvailableCells test_grid) /\
               exists beta' c,
                 __maximize (search_fuel (3 + 1)) (setCellValue test_grid p 2) (3 + 1)
                            (- MAX_UTILITY) beta'
                 = Some (c, v)).
Proof.
  split; [reflexivity|]. split; [vm_compute; discriminate|].
  apply (minimize_reports test_grid 3 (- MAX_UTILITY) MAX_UTILITY);
    [reflexivity|vm_compute; discriminate].
Defined.

(** X8.  For every depth up to the limit and every window with
    [-MAX_UTILITY <= alpha < beta <= MAX_UTILITY], the utility [v] that a
    procedure returns and the minimax utility [m] of the same node agree
    when [v] lies inside the window; when [v] is at or below [alpha],
    [m] is at most [v]; when [v] is at or above [beta], [m] is at least
    [v]. *)
Theorem pruning_sound_in_window (g : Grid) (depth alpha beta : Z) :
  depth <= MAX_DEPTH ->
  - MAX_UTILITY <= alpha -> alpha < beta -> beta <= MAX_UTILITY ->
  (exists c v m,
      __maximize (search_fuel depth) g depth alpha beta = Some (c, v) /\
      minimax_max (search_fuel depth) g depth = Some m /\
      (alpha < v < beta -> m = v) /\ (v <= alpha -> m <= v) /\ (beta <= v -> v <= m)) /\
  (exists c v m,
      __minimize (search_fuel depth) g depth alpha beta = Some (c, v) /\
      minimax_min (search_fuel depth) g depth = Some m /\
      (alpha < v < beta -> m = v) /\ (v <= alpha -> m <= v) /\ (beta <= v -> v <= m)).
Proof.
  intros Hdepth Hlow Hwin Hup.
  destruct (search_sound (search_fuel depth) depth Hdepth ltac:(unfold search_fuel; lia))
    as [Hmax Hmin].
  split.
  - destruct (Hmax g alpha beta Hlow Hwin Hup) as (c & v & m & Hv & Hm & H1 & H2 & H3).
    exists c, v, m. auto.
  - destruct (Hmin g alpha beta Hlow Hwin Hup) as (c & v & m & Hv & Hm & H1 & H2 & H3).
    exists c, v, m. auto.
Qed.

Lemma pruning_sound_in_window_witness :
  2 <= MAX_DEPTH /\ - MAX_UTILITY <= 10000 /\ 10000 < 10500 /\ 10500 <= MAX_UTILITY /\
  exists c v m,
    __maximize (search_fuel 2) test_grid 2 10000 10500 = Some (c, v) /\
    minimax_max (search_fuel 2) test_grid 2 = Some m /\
    (10000 < v < 10500 -> m = v) /\ (v <= 10000 -> m <= v) /\ (10500 <= v -> v <= m).
Proof.
  assert (H1 : 2 <= MAX_DEPTH) by (vm_compute; discriminate).
  assert (H2 : - MAX_UTILITY <= 10000) by (vm_compute; discriminate).
  assert (H3 : 10000 < 10500) by reflexivity.
  assert (H4 : 10500 <= MAX_UTILITY) by (vm_compute; discriminate).
  split; [exact H1|]. split; [exact H2|]. split; [exact H3|]. split; [exact H4|].
  apply (pruning_sound_in_window test_grid 2 10000 10500 H1 H2 H3 H4).
Defined.

(** ** The boards the search visits, and how many *)

Lemma getAvailableMoves_length (g : Grid) : (length (getAvailableMoves g) <= 4)%nat.
Proof.
  unfold getAvailableMoves, vecIndex.
  repeat (cbn [filter]; destruct (moved g _)); simpl; lia.
Qed.

Lemma getAvailableCells_length (g : Grid) :
  (length (getAvailableCells g) <= Z.to_nat (size g) * Z.to_nat (size g))%nat.
Proof.
  unfold getAvailableCells. rewrite <- length_positions.
  induction (positions (size g)) as [|pos l IH]; simpl; [lia|].
  destruct (cell g (fst pos) (snd pos) =? 0); simpl; lia.
Qed.

Section MaximizeLoopExplores.
Variable obj : ref -> Z -> Z -> Z -> comp (minimize_result * call).
Variable pure : Grid -> Z -> Z -> Z -> option minimize_result.
Variable bnd : nat -> nat.
Hypothesis obj_explores : refines_exploring bnd obj pure.

Lemma obj_maximize_loop_explores :
  forall moves s r g depth max_move max_utility alpha beta calls res,
    nth_error s r = Some g ->
    maximize_loop pure g depth moves max_move max_utility alpha beta = Some res ->
    exists new s',
      obj_maximize_loop obj r depth moves max_move max_utility alpha beta calls s
      = Some ((res, calls ++ new), s ++ s') /\
      (exists unvisited, List.map call_board new ++ unvisited = List.map (move g) moves) /\
      All explores new /\
      length s' = sum_of count_calls new /\
      (sum_of count_calls new <= length moves * bnd (Z.to_nat (size g)))%nat.
Proof.
  induction moves as [|a_move moves IH];
    intros s r g depth max_move max_utility alpha beta calls res Hr;
    cbn [maximize_loop obj_maximize_loop].
  - intros [= <-]. exists [], []. rewrite !app_nil_r. unfold ret.
    repeat split; simpl; trivial. exists []. reflexivity.
  - rewrite clone_eq.
    destruct (pure (move g a_move) (depth + 1) alpha beta) as [[c utility]|] eqn:Hpure;
      [|discriminate].
    unfold bind at 1. unfold new_clone. rewrite Hr, clone_eq.
    unfold bind at 1. unfold mutate. rewrite (store_new s []), (store_set_new s []).
    unfold bind at 1.
    destruct (obj_explores (s ++ [move g a_move]) (length s) _ _ _ _ _ (store_new s [] _) Hpure)
      as (probe & s1 & -> & Hboard & Hexplores & Hgrowth & Hcount).
    change (size (move g a_move)) with (size g) in Hcount.
    destruct (utility >=? beta).
    + intros [= <-]. exists [probe], (move g a_move :: s1). unfold ret.
      rewrite <- app_assoc. repeat split; trivial.
      * exists (List.map (move g) moves). simpl. rewrite Hboard. reflexivity.
      * simpl. lia.
      * simpl. lia.
    + intros Hloop.
      eapply IH with (s := (s ++ [move g a_move]) ++ s1) (calls := calls ++ [probe]) in Hloop;
        [|rewrite <- app_assoc; apply store_old, Hr].
      destruct Hloop as (new & s2 & -> & [unvisited Hprefix] & Hall & Hlen & Hsum).
      exists (probe :: new), (move g a_move :: s1 ++ s2).
      rewrite <- !app_assoc. repeat split; trivial.
      * exists unvisited. simpl. rewrite Hboard, Hprefix. reflexivity.
      * simpl. rewrite length_app. lia.
      * simpl. lia.
Qed.
End MaximizeLoopExplores.

Section MinimizeLoopExplores.
Variable obj : ref -> Z -> Z -> Z -> comp (maximize_result * call).
Variable pure : Grid -> Z -> Z -> Z -> option maximize_result.
Variable bnd : nat -> nat.
Hypothesis obj_explores : refines_exploring bnd obj pure.

Lemma obj_minimize_loop_explores :
  forall cells s r g depth min_move min_utility alpha beta calls res,
    nth_error s r = Some g ->
    minimize_loop pure g depth cells min_move min_utility alpha beta = Some res ->
    exists new s',
      obj_minimize_loop obj r depth cells min_move min_utility alpha beta calls s
      = Some ((res, calls ++ new), s ++ s') /\
      (exists unvisited,
          List.map call_board new ++ unvisited
          = flat_map (fun a_cell =>
                        List.map (fun item => setCellValue g a_cell (fst item)) TILE_VALUE_PROBA)
                     cells) /\
      All explores new /\
      length s' = sum_of count_calls new /\
      (sum_of count_calls new <= length cells * bnd (Z.to_nat (size g)))%nat.
Proof.
  induction cells as [|a_cell cells IH];
    intros s r g depth min_move min_utility alpha beta calls res Hr;
    cbn [minimize_loop obj_minimize_loop].
  - intros [= <-]. exists [], []. rewrite !app_nil_r. unfold ret.
    repeat split; simpl; trivial. exists []. reflexivity.
  - rewrite clone_eq. unfold TILE_VALUE_PROBA. cbn [expected_loop obj_expected_loop flat_map List.map].
    destruct (pure (setCellValue g a_cell 2) (depth + 1) alpha beta) as [[c utility]|] eqn:Hpure;
      [|discriminate].
    unfold bind at 1. unfold new_clone. rewrite Hr, clone_eq.
    unfold bind at 1. unfold bind at 1. unfold mutate.
    rewrite (store_new s []), (store_set_new s []).
    unfold bind at 1.
    destruct (obj_explores (s ++ [setCellValue g a_cell 2]) (length s) _ _ _ _ _
                (store_new s [] _) Hpure)
      as (probe & s1 & -> & Hboard & Hexplores & Hgrowth & Hcount).
    change (size (setCellValue g a_cell 2)) with (size g) in Hcount.
    unfold ret at 1.
    destruct ((0 + 9 * utility) / (0 + 9) <=? alpha).
    + intros [= <-]. exists [probe], (setCellValue g a_cell 2 :: s1). unfold ret.
      rewrite <- app_assoc. repeat split; trivial.
      * eexists. cbn [List.map app fst]. rewrite Hboard. reflexivity.
      * simpl. lia.
      * simpl. lia.
    + intros Hloop.
      eapply IH with (s := (s ++ [setCellValue g a_cell 2]) ++ s1) (calls := calls ++ [probe])
        in Hloop; [|rewrite <- app_assoc; apply store_old, Hr].
      destruct Hloop as (new & s2 & -> & [unvisited Hprefix] & Hall & Hlen & Hsum).
      exists (probe :: new), (setCellValue g a_cell 2 :: s1 ++ s2).
      rewrite <- !app_assoc. repeat split; trivial.
      * exists unvisited. cbn [List.map app fst]. rewrite Hboard, Hprefix. reflexivity.
      * simpl. rewrite length_app. lia.
      * simpl. lia.
Qed.
End MinimizeLoopExplores.

Lemma obj_search_explores (fuel : nat) :
  refines_exploring (max_calls fuel) (obj_maximize fuel) (__maximize fuel) /\
  refines_exploring (min_calls fuel) (obj_minimize fuel) (__minimize fuel).
Proof.
  induction fuel as [|fuel [IHmax IHmin]]; [split; intros s r g depth alpha beta res _; discriminate|].
  split; intros s r g depth alpha beta res Hr; cbn [__maximize __minimize obj_maximize obj_minimize];
    run_query Hr; run_query Hr; destruct (cutoff g depth).
  - intros [= <-]. run_query Hr. exists (Static Maximizing depth g), [].
    rewrite app_nil_r. repeat split. simpl. lia.
  - intros Hloop. run_query Hr. unfold bind at 1.
    destruct (obj_maximize_loop_explores _ _ _ IHmin _ s r g depth _ _ _ _ [] res Hr Hloop)
      as (new & s' & -> & Hprefix & Hall & Hlen & Hsum).
    unfold ret. exists (Searched Maximizing depth g new), s'.
    pose proof (getAvailableMoves_length g) as Hmoves.
    repeat split; trivial.
    + change (S (length s') = S (sum_of count_calls new)). lia.
    + change (S (sum_of count_calls new) <= S (4 * min_calls fuel (Z.to_nat (size g))))%nat.
      nia.
  - intros [= <-]. run_query Hr. exists (Static Minimizing depth g), [].
    rewrite app_nil_r. repeat split. simpl. lia.
  - intros Hloop. run_query Hr. unfold bind at 1.
    destruct (obj_minimize_loop_explores _ _ _ IHmax _ s r g depth _ _ _ _ [] res Hr Hloop)
      as (new & s' & -> & Hprefix & Hall & Hlen & Hsum).
    unfold ret. exists (Searched Minimizing depth g new), s'.
    pose proof (getAvailableCells_length g) as Hcells.
    repeat split; trivial.
    + change (S (length s') = S (sum_of count_calls new)). lia.
    + change (S (sum_of count_calls new)
              <= S (Z.to_nat (size g) * Z.to_nat (size g) * max_calls fuel (Z.to_nat (size g))))%nat.
      nia.
Qed.

(** X9.  Every call of the search that enters its loop visits successors
    of its own board, in the order of the loop and without a gap: a call
    of [__maximize] the boards after the first legal shifts, a call of
    [__minimize] the boards with a 2 in the first empty cells.  The shift
    or tile tried for one sibling is not seen by the next. *)
Theorem search_explores_successors (s : store) (r : ref) (g : Grid) (depth alpha beta : Z) :
  nth_error s r = Some g -> depth <= MAX_DEPTH ->
  (exists res probe s',
      obj_maximize (search_fuel depth) r depth alpha beta s = Some ((res, probe), s') /\
      call_board probe = g /\ explores probe) /\
  (exists res probe s',
      obj_minimize (search_fuel depth) r depth alpha beta s = Some ((res, probe), s') /\
      call_board probe = g /\ explores probe).
Proof.
  intros Hr Hdepth.
  destruct (search_fuel_enough depth Hdepth) as [Hmax Hmin].
  destruct (obj_search_explores (search_fuel depth)) as [Emax Emin].
  split.
  - destruct (Hmax g alpha beta) as [res Hpure].
    destruct (Emax s r g depth alpha beta res Hr Hpure) as (probe & s' & Hobj & Hb & He & _).
    exists res, probe, (s ++ s'). auto.
  - destruct (Hmin g alpha beta) as [res Hpure].
    destruct (Emin s r g depth alpha beta res Hr Hpure) as (probe & s' & Hobj & Hb & He & _).
    exists res, probe, (s ++ s'). auto.
Qed.

Lemma search_explores_successors_witness :
  nth_error [test_grid] 0 = Some test_grid /\ 3 <= MAX_DEPTH /\
  exists res probe s',
    obj_maximize (search_fuel 3) 0%nat 3 0 0 [test_grid] = Some ((res, probe), s') /\
    call_board probe = test_grid /\ explores probe.
Proof.
  assert (Hd : 3 <= MAX_DEPTH) by (vm_compute; discriminate).
  split; [reflexivity|]. split; [exact Hd|].
  apply (search_explores_successors [test_grid] 0%nat test_grid 3 0 0 eq_refl Hd).
Defined.

(** X10.  A call of [getMove] allocates one board for every call of a
    search procedure below the root, and on a board of [n] rows it makes
    at most [1 + 4 (1 + n^2 (1 + 4 (1 + n^2)))] such calls, the root
    included: 4421 on the 4 x 4 board. *)
Theorem getMove_calls_and_clones (entropy : Z) (s : store) (r : ref) (g : Grid) :
  nth_error s r = Some g ->
  exists out probe s',
    getMove entropy r s = Some ((out, probe), s ++ s') /\
    S (length s') = count_calls probe /\
    (count_calls probe
     <= 1 + 4 * (1 + Z.to_nat (size g) * Z.to_nat (size g)
                     * (1 + 4 * (1 + Z.to_nat (size g) * Z.to_nat (size g)))))%nat.
Proof.
  intros Hr.
  destruct (search_fuel_enough 0 ltac:(unfold MAX_DEPTH; lia)) as [Htotal _].
  destruct (Htotal g (- MAX_UTILITY) MAX_UTILITY) as [[a_move v] Hpure].
  destruct (obj_search_explores (search_fuel 0)) as [Emax _].
  destruct (Emax s r g 0 _ _ _ Hr Hpure) as (probe & s' & Hobj & _ & _ & Hgrowth & Hcount).
  eexists _, probe, s'. split; [|split; [exact Hgrowth|]].
  - apply (getMove_unfold entropy s (s ++ s') r g a_move v probe Hobj). apply store_old, Hr.
  - change (search_fuel 0) with 5%nat in Hcount. cbn [max_calls min_calls] in Hcount. nia.
Qed.

Lemma getMove_calls_and_clones_witness :
  nth_error [test_grid] 0 = Some test_grid /\
  exists out probe s',
    getMove 7 0%nat [test_grid] = Some ((out, probe), [test_grid] ++ s') /\
    S (length s') = count_calls probe /\
    (count_calls probe
     <= 1 + 4 * (1 + Z.to_nat (size test_grid) * Z.to_nat (size test_grid)
                     * (1 + 4 * (1 + Z.to_nat (size test_grid) * Z.to_nat (size test_grid)))))%nat.
Proof.
  split; [reflexivity|].
  apply (getMove_calls_and_clones 7 [test_grid] 0%nat test_grid eq_refl).
Defined.

(** X11.  On every board, whatever its largest tile, [getMove] either
    returns a direction that is a legal shift of the board, or raises
    [ValueError]; it raises exactly when the board has no legal shift,
    and it never indexes the list of moves out of range. *)
Theorem getMove_outcome (entropy : Z) (s : store) (r : ref) (g : Grid) :
  nth_error s r = Some g ->
  exists out probe s',
    getMove entropy r s = Some ((out, probe), s') /\
    ((getAvailableMoves g = [] /\ out = Raises ValueError) \/
     (exists d, out = Returns d /\ In d (getAvailableMoves g))).
Proof.
  intros Hr.
  destruct (getMove_runs entropy s r g Hr) as (a_move & v & probe & s' & Hpure & _ & Hget).
  eexists _, probe, (s ++ s'). split; [exact Hget|].
  destruct a_move as [d|].
  - right. exists d. split; [reflexivity|].
    change (search_fuel 0) with 5%nat in Hpure. cbn [__maximize] in Hpure.
    destruct (cutoff g 0); [discriminate|].
    apply maximize_loop_move in Hpure. destruct Hpure as [Hin|Hinit]; [exact Hin|discriminate].
  - destruct (getAvailableMoves g) as [|d moves] eqn:Hmoves.
    + left. split; [reflexivity|apply random_move_empty].
    + right. apply random_move_legal. discriminate.
Qed.

Lemma getMove_outcome_witness :
  nth_error [won_board] 0 = Some won_board /\
  exists out probe s',
    getMove 7 0%nat [won_board] = Some ((out, probe), s') /\
    ((getAvailableMoves won_board = [] /\ out = Raises ValueError) \/
     (exists d, out = Returns d /\ In d (getAvailableMoves won_board))).
Proof.
  split; [reflexivity|].
  apply (getMove_outcome 7 [won_board] 0%nat won_board eq_refl).
Defined.
